(** * atjson, package source-commonmark: the token-tree to annotation converter

    A shallow embedding of [packages/source-commonmark/src/index.ts]:
    [getAttributes], [toTree], [getText] and the class [Parser] with its
    methods [walk] and [convertTokenToAnnotation].

    Conventions of the embedding.
    - A JavaScript string is the list of its UTF-16 code units, so that
      [length] is the [.length] of the source and the placeholder
      [U+FFFC] is one unit.
    - A thrown [TypeError] (reading a property of [undefined] or [null])
      is the result [Throw TypeError]; the source throws nothing else.
    - Offsets of annotations are integers ([Z]), as the source computes
      [end - 1] on them. *)

From stdpp Require Import base numbers option list strings gmap.

Local Open Scope Z_scope.

(** ** JavaScript strings *)

Abbreviation jsstring := (list N).

(** The code units of an ASCII literal of the source. *)
Definition str (s : string) : jsstring :=
  (λ a, Ascii.N_of_ascii a) <$> String.list_ascii_of_string s.
Arguments str : simpl never.

(** [U+FFFC], the object replacement character. *)
Definition placeholder : N := 0xFFFC%N.

Definition backtick : N := 96%N.
Definition newline : N := 10%N.
Definition space : N := 32%N.

(** White space and line terminators of ECMAScript, as code units. *)
Definition isWhiteSpace (c : N) : bool :=
  bool_decide (c ∈ [9; 10; 11; 12; 13; 32; 160; 0x1680; 0x2028; 0x2029;
                    0x202F; 0x205F; 0x3000; 0xFEFF]%N)
  || ((0x2000 <=? c)%N && (c <=? 0x200A)%N).

Fixpoint trimStart (s : jsstring) : jsstring :=
  match s with
  | c :: s' => if isWhiteSpace c then trimStart s' else s
  | [] => []
  end.

Definition trimEnd (s : jsstring) : jsstring := reverse (trimStart (reverse s)).

(** [String.prototype.trim]. *)
Definition trim (s : jsstring) : jsstring := trimEnd (trimStart s).

(** [s.replace(/_open$/, '')]: the pattern is anchored at the end of the
    string, so at most the final five units go. *)
Definition replace_open (s : jsstring) : jsstring :=
  let n := (length s - 5)%nat in
  if bool_decide (drop n s = str "_open") then take n s else s.

(** ** Values, tokens, nodes, annotations *)

(** What an attribute of the source holds: the strings of [token.attrs],
    the number (or [NaN]) of [parseInt], the boolean [isTight]. *)
Inductive Value :=
  | VStr (s : jsstring)
  | VNum (n : Z)
  | VNaN
  | VBool (b : bool).

Abbreviation Attributes := (gmap (list N) Value).

(** The fields of a markdown-it token that the source reads. *)
Module Token.
#[local] Unset Elimination Schemes.
Inductive t := mk {
  type : jsstring;
  tag : jsstring;
  attrs : option (list (jsstring * Value));
  nesting : Z;
  content : jsstring;
  children : option (list t);
  info : jsstring;
  hidden : bool
}.
#[local] Set Elimination Schemes.

Definition set_attrs (a : option (list (jsstring * Value))) (tok : t) : t :=
  mk (type tok) (tag tok) a (nesting tok) (content tok) (children tok)
     (info tok) (hidden tok).
End Token.

(** [interface Node].  The field [parent] is not stored: a node under
    construction is addressed by its path from the root (see [toTree]),
    and its parent is the node at the path without its last step. *)
Module Node.
#[local] Unset Elimination Schemes.
Inductive t := mk {
  name : jsstring;
  open : option Token.t;
  close : option Token.t;
  value : option jsstring;
  children : option (list t)
}.
#[local] Set Elimination Schemes.

Definition set_children (cs : option (list t)) (n : t) : t :=
  mk (name n) (open n) (close n) (value n) cs.

Definition set_close (c : option Token.t) (n : t) : t :=
  mk (name n) (open n) c (value n) (children n).

Definition set_open (o : option Token.t) (n : t) : t :=
  mk (name n) o (close n) (value n) (children n).

(** [{ name: 'text', value: v, parent }] *)
Definition text (v : jsstring) : t := mk (str "text") None None (Some v) None.
End Node.

Module Annotation.
Record t := mk {
  type : jsstring;
  attributes : Attributes;
  start : Z;
  end_ : Z
}.
End Annotation.

(** ** Exceptions *)

Inductive exn := TypeError.

Inductive result (A : Type) :=
  | Ok (a : A)
  | Throw (e : exn).
Arguments Ok {A} a.
Arguments Throw {A} e.

(** Sequencing: an exception ends the computation. *)
Definition bind {A B} (m : result A) (k : A → result B) : result B :=
  match m with Ok a => k a | Throw e => Throw e end.

Notation "'let*' x := m 'in' k" := (bind m (λ x, k))
  (at level 10, x name, m at level 100, k at level 200, only parsing).
Notation "'let*' ' p := m 'in' k" := (bind m (λ x, match x with p => k end))
  (at level 10, p strict pattern, m at level 100, k at level 200, only parsing).

(** Reading a property of a value that may be [undefined]. *)
Definition get {A} (o : option A) : result A :=
  match o with Some a => Ok a | None => Throw TypeError end.

(** ** getAttributes *)

Definition getAttributes (token : Token.t) : Attributes :=
  foldl (λ (attributes : Attributes) (attribute : jsstring * Value),
           <[attribute.1 := attribute.2]> attributes)
        ∅ (default [] (Token.attrs token)).

(** ** toTree

    [currentNode] is a reference into the tree that [toTree] mutates.
    The embedding keeps the whole tree as a value and [currentNode] as a
    path: the indices of the children to follow from the root object,
    or [None] once it is [undefined].  Children arrays only grow at
    their end while the tree is built, so a path keeps denoting the same
    node across the mutations of a nested call. *)

Abbreviation path := (list nat).

Fixpoint lookupAt (p : path) (root : Node.t) : option Node.t :=
  match p with
  | [] => Some root
  | i :: p' =>
      match Node.children root with
      | Some cs => match cs !! i with
                   | Some c => lookupAt p' c
                   | None => None
                   end
      | None => None
      end
  end.

(** Mutation of the node at path [p]. *)
Fixpoint alterAt (f : Node.t → result Node.t) (p : path) (root : Node.t)
  : result Node.t :=
  match p with
  | [] => f root
  | i :: p' =>
      let* cs := get (Node.children root) in
      let* c := get (cs !! i) in
      let* c' := alterAt f p' c in
      Ok (Node.set_children (Some (<[i := c']> cs)) root)
  end.

(** [node.children.push(child)] *)
Definition push (child : Node.t) (node : Node.t) : result Node.t :=
  let* cs := get (Node.children node) in
  Ok (Node.set_children (Some (cs ++ [child])) node).

(** [currentNode.parent] of the node at path [p]; the root has none. *)
Definition parentOf (p : path) : option path :=
  match p with
  | [] => None
  | _ => Some (removelast p)
  end.

(** The padding of the content of a [code_inline] token. *)
Definition padBackticks (text : jsstring) : jsstring :=
  let text := if bool_decide (text !! 0%nat = Some backtick)
              then space :: text else text in
  if bool_decide (text !! (length text - 1)%nat = Some backtick)
  then text ++ [space] else text.

(** The state the callback of [tokens.forEach] works on. *)
Abbreviation BuildState := (option path * Node.t)%type.

(** [currentNode.children.push(child)], returning the index of the new
    child. *)
Definition pushAt (cur : option path) (child : Node.t) (tree : Node.t)
  : result (path * nat * Node.t) :=
  let* p := get cur in
  let* node := get (lookupAt p tree) in
  let* cs := get (Node.children node) in
  let* tree' := alterAt (push child) p tree in
  Ok (p, length cs, tree').

(** One call of the callback of [tokens.forEach] in [toTree]. *)
Fixpoint toTree_token (token : Token.t) (cur : option path) (tree : Node.t)
  {struct token} : result BuildState :=
  match token with
  | Token.mk type tag _ nesting content children _ _ =>
      let forEach :=
        fix forEach (tokens : list Token.t) (cur : option path) (tree : Node.t)
          : result BuildState :=
          match tokens with
          | [] => Ok (cur, tree)
          | tok :: rest =>
              let* '(cur', tree') := toTree_token tok cur tree in
              forEach rest cur' tree'
          end in
      if bool_decide (tag = str "br") && bool_decide (type = str "softbreak") then
        let* '(_, _, tree') := pushAt cur (Node.text [newline]) tree in
        Ok (cur, tree')
      else if bool_decide (type = str "text") then
        let* '(_, _, tree') := pushAt cur (Node.text content) tree in
        Ok (cur, tree')
      else if bool_decide (type = str "inline") then
        match children with
        | None => Throw TypeError
        | Some tokens =>
            let* '(_, tree') := forEach tokens cur tree in
            Ok (cur, tree')
        end
      else
        match children with
        | Some (tok :: rest) =>
            let node := Node.mk type (Some token) None None (Some []) in
            let* '(p, i, tree') := pushAt cur node tree in
            let* '(_, tree'') := forEach (tok :: rest) (Some (p ++ [i])) tree' in
            Ok (cur, tree'')
        | _ =>
            if bool_decide (nesting = 1) then
              let node := Node.mk (replace_open type) (Some token) (Some token)
                                  None (Some []) in
              let* '(p, i, tree') := pushAt cur node tree in
              Ok (Some (p ++ [i]), tree')
            else if bool_decide (nesting = -1) then
              let* p := get cur in
              let* tree' := alterAt (λ n, Ok (Node.set_close (Some token) n)) p tree in
              Ok (parentOf p, tree')
            else
              let text := if bool_decide (type = str "code_inline")
                          then padBackticks content else content in
              let node := Node.mk type (Some token) (Some token) None
                                  (Some [Node.text text]) in
              let* '(_, _, tree') := pushAt cur node tree in
              Ok (cur, tree')
        end
  end.

(** [tokens.forEach(...)] with the [currentNode] of its closure. *)
Fixpoint forEach (tokens : list Token.t) (cur : option path) (tree : Node.t)
  : result BuildState :=
  match tokens with
  | [] => Ok (cur, tree)
  | tok :: rest =>
      let* '(cur', tree') := toTree_token tok cur tree in
      forEach rest cur' tree'
  end.

(** [toTree(tokens, rootNode)], called on the root object. *)
Definition toTree (tokens : list Token.t) (rootNode : Node.t) : result Node.t :=
  let* '(_, tree) := forEach tokens (Some []) rootNode in
  Ok tree.

(** [{ children: [] }]: the root object has no name, and none is read. *)
Definition rootNode : Node.t := Node.mk [] None None None (Some []).

(** ** getText *)

Definition isText (node : Node.t) : bool :=
  bool_decide (Node.name node = str "text").

Fixpoint getText (node : Node.t) : result (list Node.t) :=
  match node with
  | Node.mk _ _ _ _ children =>
      match children with
      | None => Throw TypeError
      | Some cs =>
          (fix reduce (cs : list Node.t) (textNodes : list Node.t)
             : result (list Node.t) :=
             match cs with
             | [] => Ok textNodes
             | child :: rest =>
                 if isText child then reduce rest (textNodes ++ [child])
                 else match Node.children child with
                      | Some _ =>
                          let* more := getText child in
                          reduce rest (textNodes ++ more)
                      | None => reduce rest textNodes
                      end
             end) cs []
      end
  end.

(** [nodes.map(n => n.value).join('')]: [join] renders an [undefined]
    element as the empty string. *)
Definition joinValues (nodes : list Node.t) : jsstring :=
  concat ((λ n, default [] (Node.value n)) <$> nodes).

(** ** The class Parser *)

(** [this.content] and [this.annotations]. *)
Record Parser := mkParser {
  content : jsstring;
  annotations : list Annotation.t
}.

(** [this.content += s] *)
Definition append (s : jsstring) (this : Parser) : Parser :=
  mkParser (content this ++ s) (annotations this).

(** [this.annotations.push(...)] *)
Definition pushAnnotations (l : list Annotation.t) (this : Parser) : Parser :=
  mkParser (content this) (annotations this ++ l).

(** [this.content.length] *)
Definition contentLength (this : Parser) : Z := Z.of_nat (length (content this)).

(** [this.content += node.value]: an [undefined] value is converted to
    the string ["undefined"]. *)
Definition valueToString (v : option jsstring) : jsstring :=
  default (str "undefined") v.

(** [parseInt(c, 10)] of the one-unit string [open.tag[1]] (or of
    [undefined]): a decimal digit gives its value, anything else [NaN]. *)
Definition parseInt (c : option N) : Value :=
  match c with
  | Some c => if ((48 <=? c) && (c <=? 57))%N then VNum (Z.of_N c - 48) else VNaN
  | None => VNaN
  end.

(** A generator of [convertTokenToAnnotation] suspended at its [yield]:
    its arguments and its local [start]. *)
Record Generator := mkGenerator {
  g_name : jsstring;
  g_open : option Token.t;
  g_close : option Token.t;
  g_start : Z
}.

(** The parse-token annotation of a placeholder. *)
Definition parseToken (type : jsstring) (start end_ : Z) : Annotation.t :=
  Annotation.mk (str "parse-token") {[ str "type" := VStr type ]} start end_.

Definition isList (name : jsstring) : bool :=
  bool_decide (name = str "bullet_list") || bool_decide (name = str "ordered_list").

(** [items.children.filter(child => child.name === 'paragraph')
         .some(child => child.open.hidden)] *)
Fixpoint someHidden (paragraphs : list Node.t) : result bool :=
  match paragraphs with
  | [] => Ok false
  | child :: rest =>
      let* open := get (Node.open child) in
      if Token.hidden open then Ok true else someHidden rest
  end.

Definition isParagraph (child : Node.t) : bool :=
  bool_decide (Node.name child = str "paragraph").

(** [node.children.some(items => ...)]: [some] stops at the first item
    for which the callback holds. *)
Fixpoint isTight (items : list Node.t) : result bool :=
  match items with
  | [] => Ok false
  | item :: rest =>
      let* cs := get (Node.children item) in
      let* b := someHidden (filter (λ c, isParagraph c = true) cs) in
      if b then Ok true else isTight rest
  end.

(** [token.attrs = token.attrs || []; token.attrs.push([key, v])] *)
Definition pushAttr (key : jsstring) (v : Value) (token : Token.t) : Token.t :=
  Token.set_attrs (Some (default [] (Token.attrs token) ++ [(key, v)])) token.

(** What the converter is given from outside.
    - [decodeHTML5] is [entities.decodeHTML5], of the package [entities].
    - [handlers] is [this.handlers], the second argument of the
      constructor: for a name, the handler registered under it, if any;
      a handler maps the open token to the attributes it sets. *)
Class Externals := {
  decodeHTML5 : jsstring → jsstring;
  handlers : jsstring → option (Token.t → Attributes)
}.

Section Parser.

Context {ext : Externals}.

(** The first [next()]: the body of [convertTokenToAnnotation] up to
    its [yield]. *)
Definition next_open (name : jsstring) (open close : option Token.t)
  (this : Parser) : Generator * Parser :=
  let start := contentLength this in
  let this := append [placeholder] this in
  let this := pushAnnotations
                [parseToken (name ++ str "_open") start (start + 1)] this in
  (mkGenerator name open close start, this).

(** The attributes of the final annotation. *)
Definition finalAttributes (name : jsstring) (open : Token.t) : Attributes :=
  let attributes := getAttributes open in
  let attributes :=
    if bool_decide (name = str "heading")
    then <[str "level" := parseInt (Token.tag open !! 1%nat)]> attributes
    else attributes in
  let attributes :=
    if bool_decide (name = str "fence")
    then <[str "info" := VStr (decodeHTML5 (trim (Token.info open)))]> attributes
    else attributes in
  match handlers name with
  | Some handler => handler open ∪ attributes
  | None => attributes
  end.

(** The second [next()]: the body after the [yield]. *)
Definition next_close (g : Generator) (this : Parser) : result Parser :=
  let this := append [placeholder] this in
  let end_ := contentLength this in
  let* open := get (g_open g) in
  let attributes := finalAttributes (g_name g) open in
  Ok (pushAnnotations
        [parseToken (g_name g ++ str "_close") (end_ - 1) end_;
         Annotation.mk (g_name g) attributes (g_start g) end_] this).

(** The branch of [walk] for a node named [image]: the open token after
    [token.attrs.push(['alt', ...])]. *)
Definition altToken (node : Node.t) : result (option Token.t) :=
  let* token := get (Node.open node) in
  let* textNodes := getText node in
  Ok (Some (pushAttr (str "alt") (VStr (joinValues textNodes)) token)).

(** The branch of [walk] for a list: the open token after
    [node.open.attrs.push(['tight', isTight])]. *)
Definition tightToken (open : option Token.t) (children : option (list Node.t))
  : result (option Token.t) :=
  let* items := get children in
  let* tight := isTight items in
  let* token := get open in
  Ok (Some (pushAttr (str "tight") (VBool tight) token)).

(** The callback of [nodes.forEach] in [walk].  After
    [node.children = []] the call [this.walk(node.children)] visits
    nothing, which is the [image] case of the recursion below. *)
Fixpoint walkNode (node : Node.t) (this : Parser) {struct node} : result Parser :=
  match node with
  | Node.mk name open close value children =>
      if bool_decide (name = str "text") then
        Ok (append (valueToString value) this)
      else
        let image := bool_decide (name = str "image") in
        let* open := (if image then altToken node else Ok open) in
        let* open := (if isList name
                      then tightToken open (if image then Some [] else children)
                      else Ok open) in
        let '(g, this) := next_open name open close this in
        let* this :=
          (if image then Ok this
           else
             match children with
             | None => Throw TypeError
             | Some nodes =>
                 (fix walk (nodes : list Node.t) (this : Parser)
                    : result Parser :=
                    match nodes with
                    | [] => Ok this
                    | n :: rest => let* this := walkNode n this in walk rest this
                    end) nodes this
             end) in
        next_close g this
  end.

(** [walk(nodes)] *)
Fixpoint walk (nodes : list Node.t) (this : Parser) : result Parser :=
  match nodes with
  | [] => Ok this
  | n :: rest => let* this := walkNode n this in walk rest this
  end.

(** [new Parser(tokens, handlers)] *)
Definition newParser (tokens : list Token.t) : result Parser :=
  let* tree := toTree tokens rootNode in
  let* nodes := get (Node.children tree) in
  walk nodes (mkParser [] []).

End Parser.

(** ** The phases of [walk], named for the statements *)

Definition isImage (node : Node.t) : bool :=
  bool_decide (Node.name node = str "image").

(** The parser after the first [next()] on a node named [name]. *)
Definition afterOpen (name : jsstring) (this : Parser) : Parser :=
  pushAnnotations
    [parseToken (name ++ str "_open") (contentLength this) (contentLength this + 1)]
    (append [placeholder] this).

(** The parser after the second [next()], run on the parser [mid] by a
    generator that was started at offset [start]. *)
Definition afterClose (name : jsstring) (attributes : Attributes) (start : Z)
  (mid : Parser) : Parser :=
  let end_ := contentLength mid + 1 in
  pushAnnotations
    [parseToken (name ++ str "_close") (end_ - 1) end_;
     Annotation.mk name attributes start end_]
    (append [placeholder] mid).

(** The children that [walk] visits below a node: those of an image are
    dropped before the recursive call. *)
Definition visited (node : Node.t) : option (list Node.t) :=
  if isImage node then Some [] else Node.children node.

(** The open token as [walk] passes it to [convertTokenToAnnotation]. *)
Definition openToken (node : Node.t) : result (option Token.t) :=
  let* open := (if isImage node then altToken node else Ok (Node.open node)) in
  if isList (Node.name node)
  then tightToken open (visited node)
  else Ok open.


(** ** The trees of the statements *)

(** A node and everything below it, in document order. *)
Fixpoint subtree (node : Node.t) : list Node.t :=
  match node with
  | Node.mk _ _ _ _ children =>
      node :: match children with
              | Some cs => (fix below (cs : list Node.t) : list Node.t :=
                              match cs with
                              | [] => []
                              | c :: rest => subtree c ++ below rest
                              end) cs
              | None => []
              end
  end.

(** The nodes strictly below a node. *)
Definition descendants (node : Node.t) : list Node.t :=
  match Node.children node with
  | Some cs => cs ≫= subtree
  | None => []
  end.

(** The nodes that the callback of [walk] is called on, when [walk]
    starts on [node]: nothing below a text node or an image. *)
Fixpoint reached (node : Node.t) : list Node.t :=
  match node with
  | Node.mk name _ _ _ children =>
      node ::
      if bool_decide (name = str "text") || bool_decide (name = str "image")
      then []
      else match children with
           | Some cs => (fix below (cs : list Node.t) : list Node.t :=
                           match cs with
                           | [] => []
                           | c :: rest => reached c ++ below rest
                           end) cs
           | None => []
           end
  end.

(** The total length of the literal text values among [nodes]. *)
Definition textLength (nodes : list Node.t) : nat :=
  sum_list_with (λ n, length (default [] (Node.value n)))
                (filter (λ n, isText n = true) nodes).

(** The number of non-text nodes among [nodes]. *)
Definition nonTextCount (nodes : list Node.t) : nat :=
  length (filter (λ n, isText n = false) nodes).

(** The literal text of the text nodes among [nodes], concatenated. *)
Definition literalText (nodes : list Node.t) : jsstring :=
  concat ((λ n, default [] (Node.value n)) <$> filter (λ n, isText n = true) nodes).

(** A text node has nothing below it, as [toTree] makes them. *)
Definition textLeaf (n : Node.t) : Prop :=
  isText n = true → descendants n = [].

(** A text node carries a string value, as [toTree] makes them. *)
Definition textValued (n : Node.t) : Prop :=
  isText n = true → is_Some (Node.value n).

(** An item of a list that has a paragraph child whose open token is
    flagged hidden. *)
Definition hasHiddenParagraph (item : Node.t) : Prop :=
  ∃ children paragraph tok,
    Node.children item = Some children
    ∧ paragraph ∈ children
    ∧ Node.name paragraph = str "paragraph"
    ∧ Node.open paragraph = Some tok
    ∧ Token.hidden tok = true.

(** What the visit of [node] appends to the content: the value of a
    text node; two placeholders around the rendering of the visited
    children otherwise. *)
Fixpoint render (node : Node.t) : jsstring :=
  match node with
  | Node.mk name _ _ value children =>
      if bool_decide (name = str "text") then valueToString value
      else
        [placeholder]
        ++ (if bool_decide (name = str "image") then []
            else match children with
                 | Some cs => (fix renders (cs : list Node.t) : jsstring :=
                                 match cs with
                                 | [] => []
                                 | c :: rest => render c ++ renders rest
                                 end) cs
                 | None => []
                 end)
        ++ [placeholder]
  end.

Section Entered.

Context {ext : Externals}.

(** [entered nodes this d thisd]: while [walk nodes] runs from the
    parser [this], the callback is called on the non-text node [d], at
    some depth, when the parser is [thisd]. *)
Inductive entered : list Node.t → Parser → Node.t → Parser → Prop :=
  | entered_here n rest this :
      isText n = false →
      entered (n :: rest) this n this
  | entered_below n rest this nodes d thisd :
      isText n = false →
      visited n = Some nodes →
      entered nodes (afterOpen (Node.name n) this) d thisd →
      entered (n :: rest) this d thisd
  | entered_later n rest this this1 d thisd :
      walkNode n this = Ok this1 →
      entered rest this1 d thisd →
      entered (n :: rest) this d thisd.

End Entered.

(** The interval of an annotation lies between two offsets. *)
Definition within (lo hi : Z) (a : Annotation.t) : Prop :=
  lo ≤ Annotation.start a ∧ Annotation.start a ≤ Annotation.end_ a
  ∧ Annotation.end_ a ≤ hi.

(** A run only appends annotations, and each lies in the part of the
    buffer that the run has appended. *)
Definition appends (this this' : Parser) : Prop :=
  contentLength this ≤ contentLength this'
  ∧ ∃ added, annotations this' = annotations this ++ added
             ∧ Forall (within (contentLength this) (contentLength this')) added.

(** A later parser state: the buffer and the collection have only grown. *)
Definition extends (this this' : Parser) : Prop :=
  contentLength this ≤ contentLength this'
  ∧ annotations this `prefix_of` annotations this'.

(** The final annotation of a visit that ends in the parser [this']. *)
Definition finalAnnotation (this' : Parser) : option Annotation.t :=
  last (annotations this').

(** What [walk nodes] appends to the content. *)
Definition renderAll (nodes : list Node.t) : jsstring := nodes ≫= render.

(** All the nodes that the callback of [walk] is called on. *)
Definition reachedAll (nodes : list Node.t) : list Node.t := nodes ≫= reached.


(** ** The references of [toTree] *)

(** [currentNode], when defined, is a node of the tree with a children
    array: what the source relies on when it dereferences it. *)
Definition validCurrent (cur : option path) (tree : Node.t) : Prop :=
  ∀ p, cur = Some p →
       ∃ node, lookupAt p tree = Some node ∧ is_Some (Node.children node).

(** [tree'] is [tree] after mutations of [toTree]: every path into
    [tree] still denotes a node in [tree'], and a node that had a
    children array still has one. *)
Definition grown (tree tree' : Node.t) : Prop :=
  ∀ p node, lookupAt p tree = Some node →
            ∃ node', lookupAt p tree' = Some node'
                     ∧ (is_Some (Node.children node)
                        → is_Some (Node.children node')).

(** A mutation of one node that only appends to its children. *)
Definition appendsChildren (f : Node.t → result Node.t) : Prop :=
  ∀ n n', f n = Ok n' →
          ∀ cs, Node.children n = Some cs →
                ∃ more, Node.children n' = Some (cs ++ more).

(** ** Tokens by the branch of [toTree] that takes them *)

Definition isSoftbreak (token : Token.t) : bool :=
  bool_decide (Token.tag token = str "br")
  && bool_decide (Token.type token = str "softbreak").

(** No children to descend into: [null] or an empty array. *)
Definition childless (token : Token.t) : bool :=
  match Token.children token with
  | Some (_ :: _) => false
  | _ => true
  end.

(** The token is neither a soft break, a text, an inline wrapper nor a
    token with children: [toTree] looks at its [nesting]. *)
Definition byNesting (token : Token.t) : bool :=
  negb (isSoftbreak token)
  && negb (bool_decide (Token.type token = str "text"))
  && negb (bool_decide (Token.type token = str "inline"))
  && childless token.

(** A closing event. *)
Definition isClosing (token : Token.t) : bool :=
  byNesting token && bool_decide (Token.nesting token = -1).

(** An atomic leaf: [open] and [close] are the token itself. *)
Definition isLeaf (token : Token.t) : bool :=
  byNesting token
  && negb (bool_decide (Token.nesting token = 1))
  && negb (bool_decide (Token.nesting token = -1)).

(** A token and the tokens below it. *)
Fixpoint allTokens (token : Token.t) : list Token.t :=
  match token with
  | Token.mk _ _ _ _ _ children _ _ =>
      token :: match children with
               | Some cs => (fix below (cs : list Token.t) : list Token.t :=
                               match cs with
                               | [] => []
                               | c :: rest => allTokens c ++ below rest
                               end) cs
               | None => []
               end
  end.

(** An opening token whose node [toTree] would name [text]: a token of
    type [text_open], which markdown-it does not emit. *)
Definition opensText (token : Token.t) : bool :=
  byNesting token
  && bool_decide (Token.nesting token = 1)
  && bool_decide (replace_open (Token.type token) = str "text").

(** A node named [text] is a text node: no children array, a value. *)
Definition textShape (n : Node.t) : Prop :=
  isText n = true → Node.children n = None ∧ is_Some (Node.value n).

(** ** Sample inputs *)

(** The converter of the default export: [new Parser(tokens, {})], with
    the identity standing for [entities.decodeHTML5]. *)
Definition plain : Externals :=
  {| decodeHTML5 := λ s, s; handlers := λ _, None |}.

(** A token with the given type, tag and nesting. *)
Definition tk (type tag : string) (nesting : Z) : Token.t :=
  Token.mk (str type) (str tag) None nesting [] None [] false.

(** A text token. *)
Definition txt (s : string) : Token.t :=
  Token.mk (str "text") [] None 0 (str s) None [] false.

(** An inline wrapper. *)
Definition inl (cs : list Token.t) : Token.t :=
  Token.mk (str "inline") [] None 0 [] (Some cs) [] false.

(** The tokens of [## *a* *b*]. *)
Definition headingTokens : list Token.t :=
  [tk "heading_open" "h2" 1;
   inl [tk "em_open" "em" 1; txt "a"; tk "em_close" "em" (-1);
        txt " ";
        tk "em_open" "em" 1; txt "b"; tk "em_close" "em" (-1)];
   tk "heading_close" "h2" (-1)].

(** The open and the close marker of a node named [name]. *)
Definition openMarker (name : jsstring) (start : Z) : Annotation.t :=
  parseToken (name ++ str "_open") start (start + 1).

Definition closeMarker (name : jsstring) (end_ : Z) : Annotation.t :=
  parseToken (name ++ str "_close") (end_ - 1) end_.

(** The empty parser of the constructor. *)
Definition emptyParser : Parser := mkParser [] [].

(** The node of [*a*]. *)
Definition emNode : Node.t :=
  Node.mk (str "em") (Some (tk "em_open" "em" 1)) (Some (tk "em_close" "em" (-1)))
          None (Some [Node.text (str "a")]).

(** The node of [## *a*]. *)
Definition headingNode : Node.t :=
  Node.mk (str "heading") (Some (tk "heading_open" "h2" 1))
          (Some (tk "heading_close" "h2" (-1))) None (Some [emNode]).

(** A fence as [toTree] makes it, with the info string [" js "]. *)
Definition fenceToken : Token.t :=
  Token.mk (str "fence") (str "code") None 0 (str "x") None (str " js ") false.

Definition fenceNode : Node.t :=
  Node.mk (str "fence") (Some fenceToken) (Some fenceToken) None
          (Some [Node.text (str "x")]).

(** A paragraph, hidden or not, and a list item around it. *)
Definition paragraphNode (hidden : bool) : Node.t :=
  Node.mk (str "paragraph")
          (Some (Token.mk (str "paragraph_open") (str "p") None 1 [] None [] hidden))
          (Some (tk "paragraph_close" "p" (-1))) None
          (Some [Node.text (str "a")]).

Definition itemNode (hidden : bool) : Node.t :=
  Node.mk (str "list_item") (Some (tk "list_item_open" "li" 1))
          (Some (tk "list_item_close" "li" (-1))) None
          (Some [paragraphNode hidden]).

(** A list of two items, the first with a hidden paragraph. *)
Definition listNode : Node.t :=
  Node.mk (str "bullet_list") (Some (tk "bullet_list_open" "ul" 1))
          (Some (tk "bullet_list_close" "ul" (-1))) None
          (Some [itemNode true; itemNode false]).

(** The image of [![*a*b](x.png)]. *)
Definition imageToken : Token.t :=
  Token.mk (str "image") (str "img")
           (Some [(str "src", VStr (str "x.png")); (str "alt", VStr [])]) 0 []
           (Some [tk "em_open" "em" 1; txt "a"; tk "em_close" "em" (-1); txt "b"])
           [] false.

Definition imageNode : Node.t :=
  Node.mk (str "image") (Some imageToken) None None
          (Some [emNode; Node.text (str "b")]).

(** The tokens of the paragraph [![cat](x.png)]. *)
Definition imageParagraphTokens : list Token.t :=
  [tk "paragraph_open" "p" 1;
   inl [Token.mk (str "image") (str "img")
          (Some [(str "src", VStr (str "x.png")); (str "alt", VStr [])]) 0 []
          (Some [txt "cat"]) [] false];
   tk "paragraph_close" "p" (-1)].

(** A node without children: an opening token that its closing token
    follows at once. *)
Definition emptyNode : Node.t :=
  Node.mk (str "del") (Some (tk "del_open" "del" 1)) (Some (tk "del_close" "del" (-1)))
          None (Some []).


(** The tokens of a paragraph. *)
Definition paragraphTokens (inline : list Token.t) : list Token.t :=
  [tk "paragraph_open" "p" 1; inl inline; tk "paragraph_close" "p" (-1)].

(** The code span whose content is [`a`], backticks included. *)
Definition codeToken : Token.t :=
  Token.mk (str "code_inline") (str "code") None 0 (str "`a`") None [] false.

(** ** Further notions for the statements *)


(** An annotation moved by [k] units. *)
Definition shift (k : Z) (a : Annotation.t) : Annotation.t :=
  Annotation.mk (Annotation.type a) (Annotation.attributes a)
                (Annotation.start a + k) (Annotation.end_ a + k).

(** The unit of the content at an offset. *)
Definition unitAt (content : jsstring) (offset : Z) : option N :=
  if decide (0 ≤ offset) then content !! Z.to_nat offset else None.

(** The interval of an annotation is not empty, and its first and its
    last unit in [content] are placeholders. *)
Definition bracketed (content : jsstring) (a : Annotation.t) : Prop :=
  Annotation.start a < Annotation.end_ a
  ∧ unitAt content (Annotation.start a) = Some placeholder
  ∧ unitAt content (Annotation.end_ a - 1) = Some placeholder.

(** A non-text node that [walk] cannot convert: it has no open token or
    no children array. *)
Definition incomplete (n : Node.t) : Prop :=
  isText n = false ∧ (Node.open n = None ∨ Node.children n = None).

(** The text node carries a value in which no placeholder occurs. *)
Definition plainText (n : Node.t) : Prop :=
  isText n = true → ∃ v, Node.value n = Some v ∧ placeholder ∉ v.

(** What a run appends, with the annotations as they would be in an
    empty buffer. *)
Definition appended (this this' : Parser) (dc : jsstring)
  (da : list Annotation.t) : Prop :=
  content this' = content this ++ dc
  ∧ annotations this' = annotations this ++ (shift (contentLength this) <$> da).

(** [node'] is [node] at a later time of [toTree]: the same name, open
    token and value; a children array that has not shrunk, or still
    none. *)
Definition keeps (node node' : Node.t) : Prop :=
  Node.name node' = Node.name node
  ∧ Node.open node' = Node.open node
  ∧ Node.value node' = Node.value node
  ∧ match Node.children node with
    | Some cs => ∃ cs', Node.children node' = Some cs'
                        ∧ (length cs ≤ length cs')%nat
    | None => Node.children node' = None
    end.

(** Every node of [tree] is still in [tree'], at the same path, and
    [tree'] keeps it. *)
Definition onlyGrows (tree tree' : Node.t) : Prop :=
  ∀ p node, lookupAt p tree = Some node →
            ∃ node', lookupAt p tree' = Some node' ∧ keeps node node'.

(** An opening event: [toTree] takes the branch of [nesting === 1]. *)
Definition isOpening (token : Token.t) : bool :=
  byNesting token && bool_decide (Token.nesting token = 1).

(** The depth of the current node after the callback of [toTree], read
    off the stream alone: [d] is the depth of the current node before,
    or [None] when it is [undefined]; the result is [None] when the
    callback throws. *)
Fixpoint depth_token (token : Token.t) (d : option nat)
  {struct token} : option (option nat) :=
  match token with
  | Token.mk type tag _ nesting _ children _ _ =>
      let depth_forEach :=
        fix depth_forEach (tokens : list Token.t) (d : option nat)
          : option (option nat) :=
          match tokens with
          | [] => Some d
          | tok :: rest =>
              match depth_token tok d with
              | Some d' => depth_forEach rest d'
              | None => None
              end
          end in
      if bool_decide (tag = str "br") && bool_decide (type = str "softbreak")
      then (if d is Some _ then Some d else None)
      else if bool_decide (type = str "text")
      then (if d is Some _ then Some d else None)
      else if bool_decide (type = str "inline") then
        match children with
        | None => None
        | Some tokens => if depth_forEach tokens d is Some _ then Some d else None
        end
      else
        match children with
        | Some (tok :: rest) =>
            match d with
            | Some k =>
                if depth_forEach (tok :: rest) (Some (S k)) is Some _
                then Some d else None
            | None => None
            end
        | _ =>
            if bool_decide (nesting = 1) then
              match d with Some k => Some (Some (S k)) | None => None end
            else if bool_decide (nesting = -1) then
              match d with
              | Some (S k) => Some (Some k)
              | Some O => Some None
              | None => None
              end
            else (if d is Some _ then Some d else None)
        end
  end.

Fixpoint depth_forEach (tokens : list Token.t) (d : option nat)
  : option (option nat) :=
  match tokens with
  | [] => Some d
  | tok :: rest =>
      match depth_token tok d with
      | Some d' => depth_forEach rest d'
      | None => None
      end
  end.

(** ** Further sample inputs *)


(** An emphasis node that lost its open token, and a heading around it. *)
Definition brokenNode : Node.t :=
  Node.mk (str "em") None None None (Some [Node.text (str "a")]).

Definition headingOfBroken : Node.t :=
  Node.mk (str "heading") (Some (tk "heading_open" "h2" 1))
          (Some (tk "heading_close" "h2" (-1))) None (Some [brokenNode]).

(** The tree of the root after the opening of a paragraph. *)
Definition paragraphOpened : Node.t :=
  Node.mk [] None None None
    (Some [Node.mk (str "paragraph") (Some (tk "paragraph_open" "p" 1))
                   (Some (tk "paragraph_open" "p" 1)) None (Some [])]).
(** * Properties *)

(** ** Induction on nodes *)

Lemma Node_children_ind (P : Node.t → Prop) :
  (∀ n, Forall P (default [] (Node.children n)) → P n) → ∀ n, P n.
Proof.
  intros step. fix IH 1.
  intros [name open close value [cs|]]; apply step; simpl; [|constructor].
  induction cs as [|c cs IHcs]; constructor; [apply IH | exact IHcs].
Qed.

(** ** Sequencing *)

Lemma bind_Ok {A B} (m : result A) (k : A → result B) (b : B) :
  bind m k = Ok b → ∃ a, m = Ok a ∧ k a = Ok b.
Proof. destruct m as [a|e]; simpl; [eauto | discriminate]. Qed.

Lemma get_Ok {A} (o : option A) (a : A) : get o = Ok a → o = Some a.
Proof. destruct o; simpl; congruence. Qed.

Ltac inv_bind H :=
  let a := fresh "a" in
  let E := fresh "E" in
  apply bind_Ok in H; destruct H as (a & E & H).

(** ** Strings *)

Lemma trimStart_spec (s : jsstring) :
  ∃ l, s = l ++ trimStart s
       ∧ Forall (λ c, isWhiteSpace c = true) l
       ∧ (∀ c, head (trimStart s) = Some c → isWhiteSpace c = false).
Proof.
  induction s as [|c s (l & E & Hl & Hhead)]; simpl.
  - exists []. split; [reflexivity|]. split; [constructor | discriminate].
  - destruct (isWhiteSpace c) eqn:Hc.
    + exists (c :: l). split; [simpl; congruence|]. split; [by constructor | exact Hhead].
    + exists []. split; [reflexivity|]. split; [constructor|].
      simpl. intros c' [= <-]. exact Hc.
Qed.

(** [trim] removes the white space at both ends, and only it. *)
Lemma trim_spec (s : jsstring) :
  ∃ l r, s = l ++ trim s ++ r
         ∧ Forall (λ c, isWhiteSpace c = true) l
         ∧ Forall (λ c, isWhiteSpace c = true) r
         ∧ (∀ c, head (trim s) = Some c → isWhiteSpace c = false)
         ∧ (∀ c, last (trim s) = Some c → isWhiteSpace c = false).
Proof.
  destruct (trimStart_spec s) as (l & El & Hl & Hhead).
  destruct (trimStart_spec (reverse (trimStart s))) as (r & Er & Hr & Hlast).
  unfold trim, trimEnd.
  set (t := trimStart s) in *. set (u := trimStart (reverse t)) in *.
  assert (Et : t = reverse u ++ reverse r).
  { rewrite <- reverse_app, <- Er. by rewrite reverse_involutive. }
  exists l, (reverse r). split; [by rewrite <- Et|].
  split; [exact Hl|]. split; [by apply Forall_reverse|]. split.
  - intros c Hc. apply Hhead. rewrite Et.
    destruct (reverse u); [discriminate | exact Hc].
  - intros c Hc. apply Hlast. by rewrite <- last_reverse, Hc.
Qed.

(** ** The two phases of [walkNode] *)

Section Walk.

Context {ext : Externals}.

(** [walkNode] as the source reads: text, or open phase, children,
    close phase. *)
Lemma walkNode_unfold (node : Node.t) (this : Parser) :
  walkNode node this =
    if isText node then Ok (append (valueToString (Node.value node)) this)
    else
      let* open := openToken node in
      let* this' := (let* nodes := get (visited node) in
                     walk nodes (afterOpen (Node.name node) this)) in
      next_close (mkGenerator (Node.name node) open (Node.close node)
                              (contentLength this)) this'.
Proof.
  destruct node as [name open close value children].
  unfold isText, openToken, visited, isImage; simpl.
  destruct (bool_decide (name = str "text")); [reflexivity|].
  destruct (bool_decide (name = str "image")); simpl.
  - destruct (altToken _); simpl; [|reflexivity].
    destruct (isList name); [|reflexivity].
    destruct (tightToken _ _); reflexivity.
  - destruct (isList name); simpl.
    + destruct (tightToken _ _); simpl; [|reflexivity].
      destruct children; reflexivity.
    + destruct children; reflexivity.
Qed.

Lemma contentLength_append s this :
  contentLength (append s this) = contentLength this + Z.of_nat (length s).
Proof. unfold contentLength, append; simpl. rewrite length_app. lia. Qed.

Lemma next_close_Ok g mid this' :
  next_close g mid = Ok this' →
  ∃ tok, g_open g = Some tok
         ∧ this' = afterClose (g_name g) (finalAttributes (g_name g) tok)
                              (g_start g) mid.
Proof.
  unfold next_close; intros H. inv_bind H. apply get_Ok in E.
  exists a; split; [exact E|]. injection H as <-.
  unfold afterClose. rewrite contentLength_append. reflexivity.
Qed.


Lemma walkNode_text node this :
  isText node = true →
  walkNode node this = Ok (append (valueToString (Node.value node)) this).
Proof. intros Ht. rewrite walkNode_unfold, Ht. reflexivity. Qed.

Lemma walkNode_nonText node this this' :
  isText node = false →
  walkNode node this = Ok this' →
  ∃ tok nodes mid,
    openToken node = Ok (Some tok)
    ∧ visited node = Some nodes
    ∧ walk nodes (afterOpen (Node.name node) this) = Ok mid
    ∧ this' = afterClose (Node.name node) (finalAttributes (Node.name node) tok)
                         (contentLength this) mid.
Proof.
  intros Ht H. rewrite walkNode_unfold, Ht in H.
  inv_bind H. rename a into open, E into Hopen.
  inv_bind H. rename a into mid, E into Hmid.
  inv_bind Hmid. rename a into nodes. apply get_Ok in E.
  apply next_close_Ok in H as (tok & Htok & ->). simpl in Htok. subst open.
  exists tok, nodes, mid. auto.
Qed.

(** Induction along the run of [walk]: a property of every call of the
    callback ([R]) and of every call of [walk] ([Rs]). *)
Lemma walk_run_ind
  (R : Node.t → Parser → Parser → Prop)
  (Rs : list Node.t → Parser → Parser → Prop) :
  (∀ n this, isText n = true →
     R n this (append (valueToString (Node.value n)) this)) →
  (∀ n this tok nodes mid,
     isText n = false →
     openToken n = Ok (Some tok) →
     visited n = Some nodes →
     walk nodes (afterOpen (Node.name n) this) = Ok mid →
     Rs nodes (afterOpen (Node.name n) this) mid →
     R n this (afterClose (Node.name n) (finalAttributes (Node.name n) tok)
                          (contentLength this) mid)) →
  (∀ this, Rs [] this this) →
  (∀ n rest this mid this',
     walkNode n this = Ok mid → R n this mid →
     walk rest mid = Ok this' → Rs rest mid this' →
     Rs (n :: rest) this this') →
  (∀ n this this', walkNode n this = Ok this' → R n this this')
  ∧ (∀ nodes this this', walk nodes this = Ok this' → Rs nodes this this').
Proof.
  intros Htext Hnode Hnil Hcons.
  assert (Hlist : ∀ nodes,
             Forall (λ n, ∀ this this', walkNode n this = Ok this' → R n this this') nodes →
             ∀ this this', walk nodes this = Ok this' → Rs nodes this this').
  { induction 1 as [|n rest Hn _ IH]; intros this this' H; simpl in H.
    - injection H as <-. apply Hnil.
    - inv_bind H. eapply Hcons; eauto. }
  assert (Hone : ∀ n this this', walkNode n this = Ok this' → R n this this').
  { induction n as [n IH] using Node_children_ind. intros this this' H.
    destruct (isText n) eqn:Ht.
    - rewrite walkNode_text in H by exact Ht. injection H as <-. auto.
    - destruct (walkNode_nonText _ _ _ Ht H) as (tok & nodes & mid & Ho & Hv & Hw & ->).
      eapply Hnode; eauto. apply Hlist; [|exact Hw].
      unfold visited in Hv. destruct (isImage n).
      + injection Hv as <-. constructor.
      + rewrite Hv in IH. exact IH. }
  split; [exact Hone|]. intros nodes. apply Hlist.
  apply Forall_forall. intros n _. apply Hone.
Qed.

(** *** The content *)

Lemma render_unfold node :
  render node =
    if isText node then valueToString (Node.value node)
    else [placeholder]
         ++ renderAll (default [] (visited node))
         ++ [placeholder].
Proof.
  destruct node as [name open close value children].
  unfold isText, visited, isImage, renderAll; simpl.
  destruct (bool_decide (name = str "text")); [reflexivity|].
  destruct (bool_decide (name = str "image")); [reflexivity|].
  do 2 f_equal. destruct children as [cs|]; [|reflexivity]. simpl.
  induction cs as [|c cs IH]; [reflexivity|]. simpl. by rewrite IH.
Qed.

Lemma walk_content_both :
  (∀ n this this', walkNode n this = Ok this' →
     content this' = content this ++ render n)
  ∧ (∀ nodes this this', walk nodes this = Ok this' →
       content this' = content this ++ renderAll nodes).
Proof.
  apply walk_run_ind.
  - intros n this Ht. rewrite render_unfold, Ht. reflexivity.
  - intros n this tok nodes mid Ht _ Hv _ IH.
    rewrite render_unfold, Ht, Hv. simpl. rewrite IH. simpl.
    by rewrite <- !app_assoc.
  - intros this. unfold renderAll. simpl. by rewrite app_nil_r.
  - intros n rest this mid this' _ IHn _ IHrest.
    rewrite IHrest, IHn. unfold renderAll. simpl. by rewrite <- app_assoc.
Qed.

Lemma walk_content nodes this this' :
  walk nodes this = Ok this' →
  content this' = content this ++ renderAll nodes.
Proof. apply walk_content_both. Qed.

Lemma walkNode_content n this this' :
  walkNode n this = Ok this' →
  content this' = content this ++ render n.
Proof. apply walk_content_both. Qed.

(** *** The annotations *)

Lemma within_weaken lo hi lo' hi' a :
  lo' ≤ lo → hi ≤ hi' → within lo hi a → within lo' hi' a.
Proof. unfold within. lia. Qed.

Lemma appends_refl this : appends this this.
Proof. split; [lia|]. exists []. by rewrite app_nil_r. Qed.

Lemma appends_trans a b c : appends a b → appends b c → appends a c.
Proof.
  intros (Hab & l1 & E1 & F1) (Hbc & l2 & E2 & F2). split; [lia|].
  exists (l1 ++ l2). split; [by rewrite E2, E1, app_assoc|].
  apply Forall_app; split; eapply Forall_impl; eauto;
    intros x; apply within_weaken; lia.
Qed.

Lemma contentLength_afterOpen name this :
  contentLength (afterOpen name this) = contentLength this + 1.
Proof. unfold afterOpen. simpl. apply contentLength_append. Qed.

Lemma contentLength_afterClose name attributes start mid :
  contentLength (afterClose name attributes start mid) = contentLength mid + 1.
Proof. unfold afterClose. simpl. apply contentLength_append. Qed.

Lemma walk_appends_both :
  (∀ n this this', walkNode n this = Ok this' → appends this this')
  ∧ (∀ nodes this this', walk nodes this = Ok this' → appends this this').
Proof.
  apply walk_run_ind.
  - intros n this _. split; [rewrite contentLength_append; lia|].
    exists []. simpl. by rewrite app_nil_r.
  - intros n this tok nodes mid _ _ _ _ (Hle & added & E & F).
    rewrite contentLength_afterOpen in *.
    split; [rewrite contentLength_afterClose; lia|].
    eexists (_ :: added ++ [_; _]).
    split.
    + unfold afterClose. simpl. rewrite E. unfold afterOpen. simpl.
      rewrite <- !app_assoc. reflexivity.
    + rewrite contentLength_afterClose.
      constructor; [unfold within, parseToken; simpl; lia|].
      apply Forall_app; split.
      * eapply Forall_impl; [exact F|]. intros x; apply within_weaken; lia.
      * repeat constructor; simpl; lia.
  - apply appends_refl.
  - intros; eapply appends_trans; eauto.
Qed.

Lemma walk_appends nodes this this' :
  walk nodes this = Ok this' → appends this this'.
Proof. apply walk_appends_both. Qed.

Lemma walkNode_appends n this this' :
  walkNode n this = Ok this' → appends this this'.
Proof. apply walk_appends_both. Qed.

Lemma appends_extends this this' : appends this this' → extends this this'.
Proof. intros (Hle & added & E & _). split; [exact Hle|]. by exists added. Qed.

Lemma extends_refl this : extends this this.
Proof. split; [lia | reflexivity]. Qed.

Lemma extends_trans a b c : extends a b → extends b c → extends a c.
Proof. intros [H1 P1] [H2 P2]. split; [lia | by etrans]. Qed.

Lemma extends_afterOpen name this : extends this (afterOpen name this).
Proof.
  split; [rewrite contentLength_afterOpen; lia|].
  unfold afterOpen. simpl. by eexists.
Qed.

Lemma extends_afterClose name attributes start mid :
  extends mid (afterClose name attributes start mid).
Proof.
  split; [rewrite contentLength_afterClose; lia|].
  unfold afterClose. simpl. by eexists.
Qed.

Lemma finalAnnotation_afterClose name attributes start mid :
  finalAnnotation (afterClose name attributes start mid)
  = Some (Annotation.mk name attributes start (contentLength mid + 1)).
Proof.
  unfold finalAnnotation, afterClose. simpl.
  match goal with
  | |- last (?l ++ [?a; ?b]) = _ =>
      change (l ++ [a; b]) with (l ++ ([a] ++ [b])); rewrite app_assoc
  end.
  apply last_snoc.
Qed.

(** A node entered during a run is visited to its end within the run. *)
Lemma entered_visited nodes this d thisd :
  entered nodes this d thisd →
  ∀ this', walk nodes this = Ok this' →
  ∃ thisd', walkNode d thisd = Ok thisd'
            ∧ extends this thisd ∧ extends thisd' this'.
Proof.
  induction 1 as [n rest this Ht
                 |n rest this nodes d thisd Ht Hv _ IH
                 |n rest this this1 d thisd Hn _ IH];
    intros this' Hw; simpl in Hw.
  - inv_bind Hw. exists a. split; [exact E|].
    split; [apply extends_refl|]. apply appends_extends; eapply walk_appends; eassumption.
  - inv_bind Hw.
    destruct (walkNode_nonText _ _ _ Ht E) as (tok & nodes' & mid & _ & Hv' & Hmid & ->).
    rewrite Hv in Hv'. injection Hv' as <-.
    destruct (IH _ Hmid) as (thisd' & Hd & He1 & He2).
    exists thisd'. split; [exact Hd|]. split.
    + eapply extends_trans; [apply extends_afterOpen | exact He1].
    + eapply extends_trans; [exact He2|].
      eapply extends_trans; [apply extends_afterClose|].
      apply appends_extends; eapply walk_appends; eassumption.
  - inv_bind Hw. rewrite Hn in E. injection E as <-.
    destruct (IH _ Hw) as (thisd' & Hd & He1 & He2).
    exists thisd'. split; [exact Hd|]. split; [|exact He2].
    eapply extends_trans; [|exact He1]. apply appends_extends; eapply walkNode_appends; eassumption.
Qed.

End Walk.

(** ** The claims on the traversal *)

Section Traversal.

Context {ext : Externals}.


Lemma entered_nonText nodes this d thisd :
  entered nodes this d thisd → isText d = false.
Proof. induction 1; assumption. Qed.

(** C2.  Nesting fidelity.  Let the non-text node [a] be visited from
    the parser [this] to [this'], and let [b] be a non-text node below
    [a] that the traversal enters, in the parser [thisb].  Then the
    visit of [b] ends, in some [thisb'], and the final annotations [fa]
    of [a] and [fb] of [b] are both in the collection and satisfy
    [fa.start <= fb.start] and [fb.end <= fa.end]. *)
Theorem nesting_fidelity (a b : Node.t) (nodes : list Node.t)
  (this this' thisb : Parser) :
  isText a = false →
  walkNode a this = Ok this' →
  visited a = Some nodes →
  entered nodes (afterOpen (Node.name a) this) b thisb →
  ∃ thisb' fa fb,
    walkNode b thisb = Ok thisb'
    ∧ finalAnnotation this' = Some fa
    ∧ Annotation.type fa = Node.name a
    ∧ finalAnnotation thisb' = Some fb
    ∧ Annotation.type fb = Node.name b
    ∧ fb ∈ annotations this'
    ∧ Annotation.start fa ≤ Annotation.start fb
    ∧ Annotation.end_ fb ≤ Annotation.end_ fa.
Proof.
  intros Ha H Hv Hent.
  destruct (walkNode_nonText _ _ _ Ha H) as (tok & nodes' & mid & _ & Hv' & Hw & ->).
  rewrite Hv in Hv'. injection Hv' as <-.
  destruct (entered_visited _ _ _ _ Hent _ Hw) as (thisb' & Hb & [L1 _] & [L2 P2]).
  pose proof (entered_nonText _ _ _ _ Hent) as Hbt.
  destruct (walkNode_nonText _ _ _ Hbt Hb) as (tokb & nodesb & midb & _ & _ & _ & ->).
  rewrite contentLength_afterOpen in L1. rewrite contentLength_afterClose in L2.
  eexists _, _, _. split; [exact Hb|].
  rewrite !finalAnnotation_afterClose.
  split; [reflexivity|]. split; [reflexivity|].
  split; [reflexivity|]. split; [reflexivity|].
  simpl. split; [|lia].
  destruct P2 as [k Ek].
  rewrite Ek. apply elem_of_app; left. apply elem_of_app; left.
  unfold afterClose. simpl. apply elem_of_app; right.
  apply elem_of_cons; right. apply list_elem_of_singleton. reflexivity.
Qed.

(** C3.  Boundary well-formedness.  Every annotation [a] of the
    collection of a conversion that returns, marker or final, satisfies
    [0 <= a.start <= a.end <= content.length]. *)
Theorem boundary_well_formedness (tokens : list Token.t) (doc : Parser) :
  newParser tokens = Ok doc →
  Forall (λ a, 0 ≤ Annotation.start a
               ∧ Annotation.start a ≤ Annotation.end_ a
               ∧ Annotation.end_ a ≤ contentLength doc)
         (annotations doc).
Proof.
  unfold newParser. intros H. inv_bind H. inv_bind H.
  destruct (walk_appends _ _ _ H) as (_ & added & Eadded & F).
  rewrite Eadded. simpl. exact F.
Qed.

(** *** Attributes *)

(** Evaluates the comparisons of two literal names. *)
Ltac eval_names :=
  repeat match goal with
    | |- context [bool_decide (str ?a = str ?b)] =>
        let v := eval vm_compute in (bool_decide (str a = str b)) in
        change (bool_decide (str a = str b)) with v
    | |- context [isList (str ?a)] =>
        let v := eval vm_compute in (isList (str a)) in
        change (isList (str a)) with v
    end.

Lemma getAttributes_pushAttr (key : jsstring) v tok :
  getAttributes (pushAttr key v tok) = <[key := v]> (getAttributes tok).
Proof. unfold getAttributes, pushAttr. simpl. by rewrite foldl_app. Qed.

(** A handler that leaves [key] alone leaves the value computed for it. *)
Lemma handler_keeps (name : jsstring) (tok : Token.t) (key : jsstring)
  (attributes : Attributes) :
  (∀ handler : Token.t → Attributes, handlers name = Some handler → handler tok !! key = None) →
  match handlers name with
  | Some handler => handler tok ∪ attributes
  | None => attributes
  end !! key = attributes !! key.
Proof.
  intros Hh. destruct (handlers name) as [handler|]; [|reflexivity].
  apply lookup_union_r. by apply Hh.
Qed.

(** A handler that sets [key] decides its value: [Object.assign] lets
    the attributes of the handler win. *)
Lemma handler_overrides (name : jsstring) (tok : Token.t) (key : jsstring)
  (handler : Token.t → Attributes) (v : Value) :
  handlers name = Some handler →
  handler tok !! key = Some v →
  finalAttributes name tok !! key = Some v.
Proof.
  intros Hh Hv. unfold finalAttributes. rewrite Hh.
  by apply lookup_union_Some_l.
Qed.

Lemma finalAnnotation_walkNode node this this' :
  isText node = false →
  walkNode node this = Ok this' →
  ∃ tok, openToken node = Ok (Some tok)
         ∧ finalAnnotation this'
           = Some (Annotation.mk (Node.name node)
                     (finalAttributes (Node.name node) tok)
                     (contentLength this) (contentLength this')).
Proof.
  intros Ht H.
  destruct (walkNode_nonText _ _ _ Ht H) as (tok & nodes & mid & Ho & _ & _ & ->).
  exists tok. split; [exact Ho|].
  by rewrite finalAnnotation_afterClose, contentLength_afterClose.
Qed.

Lemma isText_name node name :
  Node.name node = str name →
  isText node = bool_decide (str name = str "text").
Proof. unfold isText. by intros ->. Qed.

Lemma isImage_name node name :
  Node.name node = str name →
  isImage node = bool_decide (str name = str "image").
Proof. unfold isImage. by intros ->. Qed.

Lemma parseInt_digit (d : N) :
  (d < 10)%N → parseInt (Some (48 + d)%N) = VNum (Z.of_N d).
Proof.
  intros Hd. unfold parseInt.
  replace ((48 <=? 48 + d)%N && (48 + d <=? 57)%N) with true.
  - f_equal. lia.
  - symmetry. apply andb_true_iff. split; apply N.leb_le; lia.
Qed.

(** C8.  Let [node] be a heading or a fence with the open token [tok],
    visited from [this] to [this'], and let no handler registered for
    its name set [level] or [info].  The final annotation [fa] of the
    visit then has: for a heading whose tag has the digit [d] as its
    second character, [attributes.level = d], and so [2] for the tag
    [h2]; for a fence, [attributes.info] equal to the HTML-entity
    decoding of the trimmed [info] of [tok]. *)
Theorem heading_level_fence_info (node : Node.t) (tok : Token.t)
  (this this' : Parser) :
  Node.name node = str "heading" ∨ Node.name node = str "fence" →
  Node.open node = Some tok →
  walkNode node this = Ok this' →
  (∀ handler : Token.t → Attributes,
     handlers (Node.name node) = Some handler →
     handler tok !! str "level" = None ∧ handler tok !! str "info" = None) →
  ∃ fa,
    finalAnnotation this' = Some fa
    ∧ Annotation.type fa = Node.name node
    ∧ (Node.name node = str "heading" →
       ∀ d : N, (d < 10)%N →
         Token.tag tok !! 1%nat = Some (48 + d)%N →
         Annotation.attributes fa !! str "level" = Some (VNum (Z.of_N d)))
    ∧ (Node.name node = str "heading" →
       Token.tag tok = str "h2" →
       Annotation.attributes fa !! str "level" = Some (VNum 2))
    ∧ (Node.name node = str "fence" →
       Annotation.attributes fa !! str "info"
       = Some (VStr (decodeHTML5 (trim (Token.info tok))))).
Proof.
  intros Hname Hopen H Hh.
  assert (Ht : isText node = false)
    by (destruct Hname as [E|E]; rewrite (isText_name _ _ E); reflexivity).
  destruct (finalAnnotation_walkNode _ _ _ Ht H) as (tok' & Ho & ->).
  assert (tok' = tok) as ->.
  { unfold openToken in Ho.
    destruct Hname as [E|E]; rewrite (isImage_name _ _ E), E in Ho;
      revert Ho; eval_names; simpl; rewrite Hopen; congruence. }
  eexists. split; [reflexivity|]. split; [reflexivity|]. simpl.
  assert (Hlevel : ∀ v, Node.name node = str "heading" →
            parseInt (Token.tag tok !! 1%nat) = v →
            finalAttributes (Node.name node) tok !! str "level" = Some v).
  { intros v E <-. unfold finalAttributes.
    rewrite handler_keeps by (intros h Eh; apply (Hh h Eh)).
    rewrite E. eval_names. apply lookup_insert_eq. }
  split; [|split].
  - intros E d Hd Htag. apply Hlevel; [exact E|].
    rewrite Htag. by apply parseInt_digit.
  - intros E Htag. apply Hlevel; [exact E|]. rewrite Htag. reflexivity.
  - intros E. unfold finalAttributes.
    rewrite handler_keeps by (intros h Eh; apply (Hh h Eh)).
    rewrite E. eval_names. apply lookup_insert_eq.
Qed.

Lemma isList_names name :
  isList name = true → name = str "bullet_list" ∨ name = str "ordered_list".
Proof.
  unfold isList. intros H. apply orb_true_iff in H as [H|H];
    apply bool_decide_eq_true in H; auto.
Qed.

Lemma someHidden_spec paragraphs b :
  someHidden paragraphs = Ok b →
  b = true ↔ ∃ p tok, p ∈ paragraphs ∧ Node.open p = Some tok
                      ∧ Token.hidden tok = true.
Proof.
  revert b. induction paragraphs as [|child rest IH]; intros b H; simpl in H.
  - injection H as <-. split; [discriminate|].
    intros (p & tok & Hin & _). by apply elem_of_nil in Hin.
  - inv_bind H. apply get_Ok in E. rename a into tok.
    destruct (Token.hidden tok) eqn:Hh.
    + injection H as <-. split; [|reflexivity]. intros _.
      exists child, tok. split; [left|]; auto.
    + rewrite (IH _ H). split.
      * intros (p & tok' & Hin & Ho & Hhid). exists p, tok'.
        split; [by right|auto].
      * intros (p & tok' & Hin & Ho & Hhid).
        apply elem_of_cons in Hin as [->|Hin]; [congruence|].
        exists p, tok'. auto.
Qed.

Lemma isTight_spec items b :
  isTight items = Ok b →
  b = true ↔ ∃ item, item ∈ items ∧ hasHiddenParagraph item.
Proof.
  revert b. induction items as [|item rest IH]; intros b H; simpl in H.
  - injection H as <-. split; [discriminate|].
    intros (item & Hin & _). by apply elem_of_nil in Hin.
  - inv_bind H. apply get_Ok in E. rename a into cs.
    inv_bind H. rename a into hid. apply someHidden_spec in E0.
    assert (Hitem : hid = true ↔ hasHiddenParagraph item).
    { rewrite E0. unfold hasHiddenParagraph. split.
      - intros (p & tok & Hin & Ho & Hh).
        apply list_elem_of_filter in Hin as [Hp Hin].
        apply bool_decide_eq_true in Hp. exists cs, p, tok. auto.
      - intros (cs' & p & tok & Hcs & Hin & Hn & Ho & Hh).
        rewrite E in Hcs. injection Hcs as <-. exists p, tok.
        split; [|auto]. apply list_elem_of_filter. split; [|exact Hin].
        unfold isParagraph. by apply bool_decide_eq_true. }
    destruct hid.
    + injection H as <-. split; [|reflexivity]. intros _.
      exists item. split; [left|by apply Hitem].
    + rewrite (IH _ H). split.
      * intros (it & Hin & Hhp). exists it. split; [by right|exact Hhp].
      * intros (it & Hin & Hhp).
        apply elem_of_cons in Hin as [->|Hin]; [|by exists it].
        apply Hitem in Hhp. discriminate.
Qed.

(** C6.  Let [node] be a bullet or ordered list, visited from [this] to
    [this'], and let no handler registered for its name set [tight].
    The final annotation [fa] of the visit then has a boolean attribute
    [tight], which is [true] if and only if some child item of the list
    has a paragraph child whose open token is flagged hidden; so it is
    [true] for a list of two items one of which has such a paragraph. *)
Theorem list_tightness (node : Node.t) (this this' : Parser) :
  isList (Node.name node) = true →
  walkNode node this = Ok this' →
  (∀ (handler : Token.t → Attributes) (tok : Token.t),
     handlers (Node.name node) = Some handler →
     handler tok !! str "tight" = None) →
  ∃ fa items tight,
    finalAnnotation this' = Some fa
    ∧ Annotation.type fa = Node.name node
    ∧ Node.children node = Some items
    ∧ Annotation.attributes fa !! str "tight" = Some (VBool tight)
    ∧ (tight = true ↔ ∃ item, item ∈ items ∧ hasHiddenParagraph item)
    ∧ (∀ item1 item2, items = [item1; item2] →
         hasHiddenParagraph item1 ∨ hasHiddenParagraph item2 →
         Annotation.attributes fa !! str "tight" = Some (VBool true)).
Proof.
  intros Hlist H Hh.
  pose proof (isList_names _ Hlist) as Hname.
  assert (Ht : isText node = false)
    by (destruct Hname as [E|E]; rewrite (isText_name _ _ E); reflexivity).
  assert (Hi : isImage node = false)
    by (destruct Hname as [E|E]; rewrite (isImage_name _ _ E); reflexivity).
  destruct (finalAnnotation_walkNode _ _ _ Ht H) as (tok & Ho & ->).
  unfold openToken, visited in Ho. rewrite Hi, Hlist in Ho. simpl in Ho.
  unfold tightToken in Ho.
  inv_bind Ho. apply get_Ok in E. rename a into items.
  inv_bind Ho. rename a into tight, E0 into Htight.
  inv_bind Ho. rename a into tok0. injection Ho as <-.
  assert (Hlookup : finalAttributes (Node.name node)
                      (pushAttr (str "tight") (VBool tight) tok0) !! str "tight"
                    = Some (VBool tight)).
  { unfold finalAttributes. rewrite handler_keeps by (intros h Eh; by apply Hh).
    destruct Hname as [En|En]; rewrite En; eval_names;
      rewrite getAttributes_pushAttr; apply lookup_insert_eq. }
  apply isTight_spec in Htight.
  eexists _, items, tight. split; [reflexivity|]. split; [reflexivity|].
  split; [exact E|]. split; [exact Hlookup|]. split; [exact Htight|].
  intros item1 item2 -> Hor. simpl. rewrite Hlookup. do 2 f_equal.
  apply Htight. destruct Hor as [Hp|Hp]; [exists item1|exists item2];
    (split; [|exact Hp]); [left | right; left].
Qed.

(** *** The text below a node *)

Lemma subtree_unfold node : subtree node = node :: descendants node.
Proof.
  destruct node as [name open close value [cs|]]; [|reflexivity].
  unfold descendants; simpl. f_equal.
Qed.

Lemma descendants_children node cs :
  Node.children node = Some cs → descendants node = cs ≫= subtree.
Proof. unfold descendants. by intros ->. Qed.

(** Below a node whose text nodes are leaves, [getText] finds every
    text node, in document order. *)
Lemma getText_spec node :
  Forall textLeaf (descendants node) →
  is_Some (Node.children node) →
  getText node = Ok (filter (λ n, isText n = true) (descendants node)).
Proof.
  induction node as [node IH] using Node_children_ind.
  intros Hleaf [cs Hcs]. rewrite (descendants_children _ _ Hcs) in *.
  destruct node as [name open close value children]. simpl in *. subst children.
  simpl in IH.
  match goal with
  | |- ?reduce cs [] = _ =>
      enough (Hacc : ∀ acc, reduce cs acc
                = Ok (acc ++ filter (λ n, isText n = true) (cs ≫= subtree)))
        by apply (Hacc [])
  end.
  induction cs as [|c cs IHcs]; intros acc.
  - simpl. by rewrite app_nil_r.
  - rewrite bind_cons, subtree_unfold in Hleaf |- *.
    apply Forall_cons in Hleaf as [Hc Hleaf].
    apply Forall_app in Hleaf as [Hbelow Hrest].
    apply Forall_cons in IH as [IHc IH].
    specialize (IHcs IH Hrest).
    destruct (isText c) eqn:Ht.
    + rewrite IHcs, (Hc Ht). simpl.
      rewrite filter_cons_True by exact Ht. by rewrite <- app_assoc.
    + simpl. rewrite filter_cons_False by congruence. rewrite filter_app.
      destruct (Node.children c) as [cs'|] eqn:Hc'.
      * rewrite (IHc Hbelow) by eauto. simpl.
        rewrite IHcs. by rewrite <- app_assoc.
      * rewrite IHcs. unfold descendants. rewrite Hc'. reflexivity.
Qed.

(** C7.  Let [node] be an image with an open token and an array of
    children, in a tree whose text nodes are leaves, and let no handler
    registered for [image] set [alt].  Its visit from [this] appends the
    two placeholders and nothing else to the content, pushes the two
    markers and the final annotation and nothing else to the
    collection, and the [alt] of the final annotation is the
    concatenation, in document order, of the values of all text nodes
    below [node]. *)
Theorem image_alt_text (node : Node.t) (tok : Token.t) (cs : list Node.t)
  (this : Parser) :
  Node.name node = str "image" →
  Node.open node = Some tok →
  Node.children node = Some cs →
  Forall textLeaf (descendants node) →
  (∀ (handler : Token.t → Attributes) (tok' : Token.t),
     handlers (str "image") = Some handler →
     handler tok' !! str "alt" = None) →
  let start := contentLength this in
  ∃ attributes,
    walkNode node this
    = Ok (mkParser
            (content this ++ [placeholder; placeholder])
            (annotations this
             ++ [openMarker (str "image") start;
                 closeMarker (str "image") (start + 2);
                 Annotation.mk (str "image") attributes start (start + 2)]))
    ∧ attributes !! str "alt" = Some (VStr (literalText (descendants node))).
Proof.
  intros Hname Hopen Hcs Hleaf Hh start.
  set (alt := VStr (literalText (descendants node))).
  exists (finalAttributes (str "image") (pushAttr (str "alt") alt tok)).
  split.
  - rewrite walkNode_unfold, (isText_name _ _ Hname).
    unfold openToken, visited. rewrite (isImage_name _ _ Hname), Hname.
    eval_names. cbn iota.
    unfold altToken. rewrite Hopen, getText_spec by eauto. simpl.
    unfold next_close. cbn [g_open g_name g_start get bind].
    f_equal. rewrite contentLength_append, contentLength_afterOpen.
    unfold afterOpen, pushAnnotations, append, closeMarker, openMarker.
    cbn [content annotations length]. fold start.
    rewrite <- !app_assoc. cbn [app].
    replace (start + 1 + Z.of_nat 1) with (start + 2) by lia.
    reflexivity.
  - unfold finalAttributes. rewrite handler_keeps by (intros h Eh; by eapply Hh).
    eval_names. rewrite getAttributes_pushAttr. apply lookup_insert_eq.
Qed.

End Traversal.

(** ** The claims on the construction of the tree *)

Lemma forEach_app (l1 l2 : list Token.t) cur tree :
  forEach (l1 ++ l2) cur tree
  = let* '(cur', tree') := forEach l1 cur tree in forEach l2 cur' tree'.
Proof.
  revert cur tree. induction l1 as [|tok l1 IH]; intros cur tree; simpl.
  - reflexivity.
  - destruct (toTree_token tok cur tree) as [[cur' tree']|e]; simpl;
      [apply IH | reflexivity].
Qed.

(** The callback of [toTree], branch by branch. *)
Lemma toTree_token_unfold (token : Token.t) cur tree :
  toTree_token token cur tree =
    if isSoftbreak token then
      let* '(_, _, tree') := pushAt cur (Node.text [newline]) tree in
      Ok (cur, tree')
    else if bool_decide (Token.type token = str "text") then
      let* '(_, _, tree') := pushAt cur (Node.text (Token.content token)) tree in
      Ok (cur, tree')
    else if bool_decide (Token.type token = str "inline") then
      let* tokens := get (Token.children token) in
      let* '(_, tree') := forEach tokens cur tree in
      Ok (cur, tree')
    else if childless token then
      if bool_decide (Token.nesting token = 1) then
        let node := Node.mk (replace_open (Token.type token)) (Some token)
                            (Some token) None (Some []) in
        let* '(p, i, tree') := pushAt cur node tree in
        Ok (Some (p ++ [i]), tree')
      else if bool_decide (Token.nesting token = -1) then
        let* p := get cur in
        let* tree' := alterAt (λ n, Ok (Node.set_close (Some token) n)) p tree in
        Ok (parentOf p, tree')
      else
        let text := if bool_decide (Token.type token = str "code_inline")
                    then padBackticks (Token.content token)
                    else Token.content token in
        let node := Node.mk (Token.type token) (Some token) (Some token) None
                            (Some [Node.text text]) in
        let* '(_, _, tree') := pushAt cur node tree in
        Ok (cur, tree')
    else
      let node := Node.mk (Token.type token) (Some token) None None (Some []) in
      let* '(p, i, tree') := pushAt cur node tree in
      let* '(_, tree'') := forEach (default [] (Token.children token))
                                   (Some (p ++ [i])) tree' in
      Ok (cur, tree'').
Proof.
  destruct token as [type tag attrs nesting content children info hidden].
  unfold isSoftbreak, childless; simpl.
  destruct (bool_decide (tag = str "br") && bool_decide (type = str "softbreak"));
    [reflexivity|].
  destruct (bool_decide (type = str "text")); [reflexivity|].
  destruct (bool_decide (type = str "inline")).
  - destruct children; reflexivity.
  - destruct children as [[|tok rest]|]; reflexivity.
Qed.

Lemma alterAt_lookup f (p : path) (tree node node' : Node.t) :
  lookupAt p tree = Some node →
  f node = Ok node' →
  ∃ tree', alterAt f p tree = Ok tree' ∧ lookupAt p tree' = Some node'.
Proof.
  revert tree. induction p as [|i p IH]; intros tree Hl Hf; simpl in *.
  - injection Hl as ->. eauto.
  - destruct (Node.children tree) as [cs|] eqn:Hcs; [|discriminate].
    destruct (cs !! i) as [c|] eqn:Hi; [|discriminate].
    destruct (IH c Hl Hf) as (c' & Hc' & Hl').
    cbn [get bind]. rewrite Hi. cbn [get bind]. rewrite Hc'. cbn [bind].
    eexists. split; [reflexivity|]. simpl.
    rewrite list_lookup_insert_eq by (by eapply lookup_lt_Some). exact Hl'.
Qed.

Lemma pushAt_lookup (p : path) (child tree node : Node.t) (cs : list Node.t) :
  lookupAt p tree = Some node →
  Node.children node = Some cs →
  ∃ tree', pushAt (Some p) child tree = Ok (p, length cs, tree')
           ∧ lookupAt p tree'
             = Some (Node.set_children (Some (cs ++ [child])) node).
Proof.
  intros Hl Hcs. unfold pushAt. simpl. rewrite Hl. simpl. rewrite Hcs. simpl.
  destruct (alterAt_lookup (push child) p tree node
              (Node.set_children (Some (cs ++ [child])) node) Hl)
    as (tree' & Ha & Hl').
  { unfold push. rewrite Hcs. reflexivity. }
  rewrite Ha. simpl. eauto.
Qed.

(** *** The current node stays a node of the tree *)

Lemma Token_children_ind (P : Token.t → Prop) :
  (∀ t, Forall P (default [] (Token.children t)) → P t) → ∀ t, P t.
Proof.
  intros step. fix IH 1.
  intros [type tag attrs nesting content [cs|] info hidden];
    apply step; simpl; [|constructor].
  induction cs as [|c cs IHcs]; constructor; [apply IH | exact IHcs].
Qed.

Lemma lookupAt_app (p q : path) tree :
  lookupAt (p ++ q) tree = lookupAt p tree ≫= lookupAt q.
Proof.
  revert tree. induction p as [|i p IH]; intros tree; simpl; [reflexivity|].
  destruct (Node.children tree) as [cs|]; [|reflexivity].
  destruct (cs !! i); [apply IH | reflexivity].
Qed.

Lemma grown_refl tree : grown tree tree.
Proof. intros p node H. eauto. Qed.

Lemma grown_trans t1 t2 t3 : grown t1 t2 → grown t2 t3 → grown t1 t3.
Proof.
  intros H12 H23 p node H.
  destruct (H12 p node H) as (n2 & H2 & K2).
  destruct (H23 p n2 H2) as (n3 & H3 & K3). eauto.
Qed.

Lemma alterAt_grown f (q : path) tree tree' :
  appendsChildren f →
  alterAt f q tree = Ok tree' →
  grown tree tree'.
Proof.
  intros Hf. revert tree tree'.
  induction q as [|j q IH]; intros tree tree' Ha; simpl in Ha.
  - intros [|i p] node Hl; simpl in Hl.
    + injection Hl as <-. exists tree'. split; [reflexivity|].
      intros [cs Hcs]. destruct (Hf _ _ Ha cs Hcs) as (more & ->). eauto.
    + destruct (Node.children tree) as [cs|] eqn:Hcs; [|discriminate].
      destruct (cs !! i) as [c|] eqn:Hi; [|discriminate].
      destruct (Hf _ _ Ha cs Hcs) as (more & Hcs').
      exists node. split; [|auto]. simpl. rewrite Hcs'.
      by rewrite (lookup_app_l_Some _ _ _ _ Hi).
  - inv_bind Ha. apply get_Ok in E. rename a into cs, E into Hcs.
    inv_bind Ha. apply get_Ok in E. rename a into cj, E into Hj.
    inv_bind Ha. rename a into cj', E into Hcj. injection Ha as <-.
    specialize (IH _ _ Hcj).
    intros [|i p] node Hl; simpl in Hl.
    + injection Hl as <-. eexists. split; [reflexivity|]. simpl. eauto.
    + rewrite Hcs in Hl. simpl.
      destruct (cs !! i) as [c|] eqn:Hi; [|discriminate].
      destruct (decide (i = j)) as [->|Hne].
      * rewrite Hj in Hi. injection Hi as <-.
        rewrite list_lookup_insert_eq by (by eapply lookup_lt_Some).
        by apply IH.
      * rewrite list_lookup_insert_ne by congruence. rewrite Hi. eauto.
Qed.

Lemma push_appendsChildren child : appendsChildren (push child).
Proof.
  intros n n' H cs Hcs. unfold push in H. rewrite Hcs in H.
  injection H as <-. simpl. eauto.
Qed.

Lemma set_close_appendsChildren tok :
  appendsChildren (λ n, Ok (Node.set_close (Some tok) n)).
Proof.
  intros n n' H cs Hcs. injection H as <-. simpl.
  exists []. by rewrite app_nil_r.
Qed.

Lemma validCurrent_grown cur tree tree' :
  validCurrent cur tree → grown tree tree' → validCurrent cur tree'.
Proof.
  intros Hv Hg p Hp. destruct (Hv p Hp) as (node & Hl & Hcs).
  destruct (Hg p node Hl) as (node' & Hl' & K). eauto.
Qed.

(** On a valid current node, [currentNode.children.push] does not throw. *)
Lemma pushAt_returns (p : path) child tree :
  validCurrent (Some p) tree →
  ∃ i tree', pushAt (Some p) child tree = Ok (p, i, tree').
Proof.
  intros Hv. destruct (Hv p eq_refl) as (node & Hl & cs & Hcs).
  destruct (pushAt_lookup p child tree node cs Hl Hcs) as (tree' & H & _). eauto.
Qed.

Lemma pushAt_Ok cur child tree (p : path) (i : nat) tree' :
  is_Some (Node.children child) →
  pushAt cur child tree = Ok (p, i, tree') →
  cur = Some p ∧ grown tree tree' ∧ validCurrent (Some (p ++ [i])) tree'.
Proof.
  intros Hchild H. unfold pushAt in H.
  inv_bind H. apply get_Ok in E. subst cur. rename a into p0.
  inv_bind H. apply get_Ok in E. rename a into node, E into Hl.
  inv_bind H. apply get_Ok in E. rename a into cs, E into Hcs.
  inv_bind H. rename a into t, E into Ha. injection H as -> <- ->.
  split; [reflexivity|].
  split; [eapply alterAt_grown; [apply push_appendsChildren | exact Ha]|].
  destruct (pushAt_lookup p child tree node cs Hl Hcs) as (t & Hp & Hl').
  unfold pushAt in Hp. cbn [get bind] in Hp. rewrite Hl in Hp.
  cbn [get bind] in Hp. rewrite Hcs, Ha in Hp. cbn [get bind] in Hp.
  injection Hp as <-.
  intros q Hq. injection Hq as <-. exists child. split; [|exact Hchild].
  rewrite lookupAt_app, Hl'. simpl.
  rewrite lookup_app_r by lia. by rewrite Nat.sub_diag.
Qed.

Lemma pushAt_grown cur child tree (p : path) (i : nat) tree' :
  pushAt cur child tree = Ok (p, i, tree') → grown tree tree'.
Proof.
  intros H. unfold pushAt in H.
  inv_bind H. inv_bind H. inv_bind H. inv_bind H. injection H as _ _ <-.
  eapply alterAt_grown; [apply push_appendsChildren | eassumption].
Qed.

Lemma parentOf_snoc (p : path) (i : nat) : parentOf (p ++ [i]) = Some p.
Proof.
  unfold parentOf. destruct (p ++ [i]) eqn:E; [by destruct p|].
  rewrite <- E. by rewrite removelast_last.
Qed.

Lemma validCurrent_parentOf (p : path) tree :
  is_Some (lookupAt p tree) → validCurrent (parentOf p) tree.
Proof.
  intros [node Hl] q Hq. revert Hl Hq.
  induction p as [|i p _] using rev_ind; intros Hl Hq; [discriminate|].
  rewrite parentOf_snoc in Hq. injection Hq as <-.
  rewrite lookupAt_app in Hl.
  destruct (lookupAt p tree) as [parent|]; [|discriminate].
  exists parent. split; [reflexivity|]. simpl in Hl.
  destruct (Node.children parent); [eauto | discriminate].
Qed.

(** The callback of [toTree] keeps the tree growing and its current
    node valid: the embedding never throws for a path that denotes no
    node, which a reference of the source cannot do. *)
Lemma toTree_token_valid (token : Token.t) :
  ∀ cur tree cur' tree',
    validCurrent cur tree →
    toTree_token token cur tree = Ok (cur', tree') →
    grown tree tree' ∧ validCurrent cur' tree'.
Proof.
  induction token as [token IH] using Token_children_ind.
  assert (Hlist : ∀ tokens,
            Forall (λ t, ∀ cur tree cur' tree',
                      validCurrent cur tree →
                      toTree_token t cur tree = Ok (cur', tree') →
                      grown tree tree' ∧ validCurrent cur' tree') tokens →
            ∀ cur tree cur' tree',
              validCurrent cur tree →
              forEach tokens cur tree = Ok (cur', tree') →
              grown tree tree' ∧ validCurrent cur' tree').
  { induction 1 as [|t rest Ht _ IHrest]; intros cur tree cur' tree' Hv H;
      simpl in H.
    - injection H as <- <-. split; [apply grown_refl | exact Hv].
    - inv_bind H. destruct a as [cur1 tree1].
      destruct (Ht _ _ _ _ Hv E) as [G1 V1].
      destruct (IHrest _ _ _ _ V1 H) as [G2 V2].
      split; [eapply grown_trans; eauto | exact V2]. }
  intros cur tree cur' tree' Hv H. rewrite toTree_token_unfold in H.
  assert (Hpush : ∀ child,
            (let* '(_, _, t) := pushAt cur child tree in Ok (cur, t))
            = Ok (cur', tree') →
            grown tree tree' ∧ validCurrent cur' tree').
  { intros child Hp. inv_bind Hp. destruct a as [[p i] t].
    injection Hp as <- <-. apply pushAt_grown in E.
    split; [exact E | eapply validCurrent_grown; eauto]. }
  destruct (isSoftbreak token); [by eapply Hpush|].
  destruct (bool_decide (Token.type token = str "text")); [by eapply Hpush|].
  destruct (bool_decide (Token.type token = str "inline")).
  { inv_bind H. apply get_Ok in E. rewrite E in IH. simpl in IH.
    inv_bind H. destruct a0 as [cur1 tree1]. injection H as <- <-.
    destruct (Hlist _ IH _ _ _ _ Hv E0) as [G _].
    split; [exact G | eapply validCurrent_grown; eauto]. }
  destruct (childless token).
  - destruct (bool_decide (Token.nesting token = 1)).
    { cbv zeta in H. inv_bind H. destruct a as [[p i] t].
      injection H as <- <-.
      apply pushAt_Ok in E as (_ & G & V); [auto | simpl; eauto]. }
    destruct (bool_decide (Token.nesting token = -1)); [|by eapply Hpush].
    inv_bind H. apply get_Ok in E. subst cur. rename a into p.
    inv_bind H. rename a into t. injection H as <- <-.
    pose proof (alterAt_grown _ _ _ _ (set_close_appendsChildren token) E) as G.
    split; [exact G|]. apply validCurrent_parentOf.
    destruct (Hv p eq_refl) as (node & Hl & _).
    destruct (G p node Hl) as (node' & Hl' & _). eauto.
  - cbv zeta in H. inv_bind H. destruct a as [[p i] t].
    inv_bind H. destruct a as [cur2 tree2]. injection H as <- <-.
    apply pushAt_Ok in E as (-> & G & V); [|simpl; eauto].
    destruct (Hlist _ IH _ _ _ _ V E0) as [G2 _].
    assert (G' : grown tree tree2) by (eapply grown_trans; eauto).
    split; [exact G' | eapply validCurrent_grown; eauto].
Qed.

Lemma forEach_valid (tokens : list Token.t) :
  ∀ cur tree cur' tree',
    validCurrent cur tree →
    forEach tokens cur tree = Ok (cur', tree') →
    grown tree tree' ∧ validCurrent cur' tree'.
Proof.
  induction tokens as [|t rest IH]; intros cur tree cur' tree' Hv H; simpl in H.
  - injection H as <- <-. split; [apply grown_refl | exact Hv].
  - inv_bind H. destruct a as [cur1 tree1].
    destruct (toTree_token_valid _ _ _ _ _ Hv E) as [G1 V1].
    destruct (IH _ _ _ _ V1 H) as [G2 V2].
    split; [eapply grown_trans; eauto | exact V2].
Qed.

(** The tree that [toTree] returns is the root object, grown: it has
    its children array, which the constructor of [Parser] reads. *)
Lemma toTree_children tokens tree :
  toTree tokens rootNode = Ok tree → is_Some (Node.children tree).
Proof.
  unfold toTree. intros H. inv_bind H. destruct a as [cur t]. injection H as <-.
  assert (Hv : validCurrent (Some []) rootNode).
  { intros p Hp. injection Hp as <-. exists rootNode. simpl. eauto. }
  destruct (forEach_valid _ _ _ _ _ Hv E) as [G _].
  destruct (G [] rootNode eq_refl) as (node' & Hl & K).
  simpl in Hl. injection Hl as <-. apply K. simpl. eauto.
Qed.

(** *** The text nodes that [toTree] makes *)

Lemma allTokens_unfold token :
  allTokens token = token :: default [] (Token.children token) ≫= allTokens.
Proof.
  destruct token as [type tag attrs nesting content [cs|] info hidden];
    [|reflexivity].
  simpl. f_equal.
Qed.

Lemma textShape_set_children n cs cs' :
  Node.children n = Some cs → textShape n →
  textShape (Node.set_children (Some cs') n).
Proof.
  intros Hcs Hn Ht. change (isText n = true) in Ht.
  destruct (Hn Ht) as [Hnone _]. congruence.
Qed.

Lemma alterAt_textShape f (p : path) tree tree' :
  (∀ n n', Forall textShape (subtree n) → f n = Ok n' →
           Forall textShape (subtree n')) →
  Forall textShape (subtree tree) →
  alterAt f p tree = Ok tree' →
  Forall textShape (subtree tree').
Proof.
  intros Hf. revert tree tree'.
  induction p as [|i p IH]; intros tree tree' Hall Ha; simpl in Ha.
  - eapply Hf; eauto.
  - inv_bind Ha. apply get_Ok in E. rename a into cs, E into Hcs.
    inv_bind Ha. apply get_Ok in E. rename a into c, E into Hi.
    inv_bind Ha. rename a into c', E into Hc. injection Ha as <-.
    rewrite subtree_unfold in Hall |- *.
    apply Forall_cons in Hall as [Hroot Hbelow].
    rewrite (descendants_children _ _ Hcs) in Hbelow.
    apply Forall_bind in Hbelow.
    constructor; [by eapply textShape_set_children|].
    unfold descendants. simpl. apply Forall_bind.
    apply Forall_insert; [exact Hbelow|]. simpl.
    eapply IH; [|exact Hc].
    rewrite Forall_forall in Hbelow. apply Hbelow.
    by eapply list_elem_of_lookup_2.
Qed.

Lemma pushAt_textShape cur child tree (p : path) (i : nat) tree' :
  Forall textShape (subtree child) →
  Forall textShape (subtree tree) →
  pushAt cur child tree = Ok (p, i, tree') →
  Forall textShape (subtree tree').
Proof.
  intros Hchild Hall H. unfold pushAt in H.
  inv_bind H. inv_bind H. inv_bind H. inv_bind H. injection H as _ _ <-.
  eapply alterAt_textShape; [|exact Hall|eassumption].
  intros n n' Hn Hpush. unfold push in Hpush.
  inv_bind Hpush. apply get_Ok in E3. injection Hpush as <-.
  rewrite subtree_unfold in Hn |- *. apply Forall_cons in Hn as [Hroot Hbelow].
  rewrite (descendants_children _ _ E3) in Hbelow.
  constructor; [by eapply textShape_set_children|].
  unfold descendants. simpl. rewrite bind_app. apply Forall_app.
  split; [exact Hbelow|]. simpl. by rewrite app_nil_r.
Qed.

Lemma textShape_text v : Forall textShape (subtree (Node.text v)).
Proof. constructor; [|constructor]. intros _. simpl. eauto. Qed.

Lemma textShape_named (name : jsstring) open close value cs :
  name ≠ str "text" →
  Forall textShape (cs ≫= subtree) →
  Forall textShape (subtree (Node.mk name open close value (Some cs))).
Proof.
  intros Hname Hcs. rewrite subtree_unfold. constructor; [|exact Hcs].
  intros Ht. unfold isText in Ht. simpl in Ht.
  apply bool_decide_eq_true in Ht. contradiction.
Qed.

(** Fed a stream without a token of type [text_open], [toTree] names
    [text] only the text nodes it makes of text and soft break tokens
    and of the content of leaves: they have a value and no children. *)
Lemma toTree_token_textShape (token : Token.t) :
  Forall (λ t, opensText t = false) (allTokens token) →
  ∀ cur tree cur' tree',
    Forall textShape (subtree tree) →
    toTree_token token cur tree = Ok (cur', tree') →
    Forall textShape (subtree tree').
Proof.
  induction token as [token IH] using Token_children_ind.
  assert (Hlist : ∀ tokens,
            Forall (λ t, Forall (λ t, opensText t = false) (allTokens t) →
                      ∀ cur tree cur' tree',
                        Forall textShape (subtree tree) →
                        toTree_token t cur tree = Ok (cur', tree') →
                        Forall textShape (subtree tree')) tokens →
            Forall (λ t, opensText t = false) (tokens ≫= allTokens) →
            ∀ cur tree cur' tree',
              Forall textShape (subtree tree) →
              forEach tokens cur tree = Ok (cur', tree') →
              Forall textShape (subtree tree')).
  { induction 1 as [|t rest Ht _ IHrest]; intros Hno cur tree cur' tree' Hall H;
      simpl in H.
    - by injection H as <- <-.
    - rewrite bind_cons in Hno. apply Forall_app in Hno as [Hno1 Hno2].
      inv_bind H. destruct a as [cur1 tree1].
      eapply IHrest; [exact Hno2| |exact H]. eapply Ht; eauto. }
  intros Hno cur tree cur' tree' Hall H.
  rewrite allTokens_unfold in Hno. apply Forall_cons in Hno as [Hself Hno].
  rewrite toTree_token_unfold in H.
  assert (Hpush : ∀ child,
            Forall textShape (subtree child) →
            (let* '(_, _, t) := pushAt cur child tree in Ok (cur, t))
            = Ok (cur', tree') →
            Forall textShape (subtree tree')).
  { intros child Hchild Hp. inv_bind Hp. destruct a as [[p i] t].
    injection Hp as <- <-.
    eapply pushAt_textShape; [exact Hchild | exact Hall | exact E]. }
  unfold opensText, byNesting in Hself.
  destruct (isSoftbreak token); [by eapply Hpush; [apply textShape_text|]|].
  destruct (bool_decide (Token.type token = str "text")) eqn:Htype;
    [by eapply Hpush; [apply textShape_text|]|].
  apply bool_decide_eq_false in Htype.
  destruct (bool_decide (Token.type token = str "inline")).
  { inv_bind H. apply get_Ok in E. rewrite E in IH, Hno. simpl in IH, Hno.
    inv_bind H. destruct a0 as [cur1 tree1]. injection H as <- <-.
    eapply Hlist; eauto. }
  simpl in Hself.
  destruct (childless token).
  - destruct (bool_decide (Token.nesting token = 1)).
    { simpl in Hself. apply bool_decide_eq_false in Hself.
      cbv zeta in H. inv_bind H. destruct a as [[p i] t].
      injection H as <- <-. eapply pushAt_textShape; [|exact Hall|exact E].
      apply textShape_named; [exact Hself | constructor]. }
    destruct (bool_decide (Token.nesting token = -1)).
    + inv_bind H. inv_bind H. injection H as <- <-.
      eapply alterAt_textShape; [|exact Hall|exact E0].
      intros n n' Hn [= <-]. rewrite subtree_unfold in Hn |- *.
      apply Forall_cons in Hn as [Hroot Hbelow]. constructor; assumption.
    + eapply Hpush; [|exact H]. apply textShape_named; [exact Htype|].
      rewrite bind_cons, app_nil_r. apply textShape_text.
  - cbv zeta in H. inv_bind H. destruct a as [[p i] t].
    inv_bind H. destruct a as [cur2 tree2]. injection H as <- <-.
    eapply Hlist; [exact IH|exact Hno| |exact E0].
    eapply pushAt_textShape; [|exact Hall|exact E].
    apply textShape_named; [exact Htype | constructor].
Qed.

Lemma toTree_textShape (tokens : list Token.t) tree :
  Forall (λ t, opensText t = false) (tokens ≫= allTokens) →
  toTree tokens rootNode = Ok tree →
  Forall textShape (subtree tree).
Proof.
  unfold toTree. intros Hno H. inv_bind H. destruct a as [cur t].
  injection H as <-. revert Hno E.
  assert (Hroot : Forall textShape (subtree rootNode))
    by (apply textShape_named; [intros Hname; discriminate Hname | constructor]).
  revert Hroot. generalize (Some (@nil nat)) rootNode.
  induction tokens as [|tok rest IH]; intros cur0 tree0 Hall Hno H; simpl in H.
  - by injection H as _ <-.
  - rewrite bind_cons in Hno. apply Forall_app in Hno as [Hno1 Hno2].
    inv_bind H. destruct a as [cur1 tree1].
    eapply IH; [|exact Hno2|exact H].
    eapply toTree_token_textShape; eauto.
Qed.

Lemma lookup_last {A} (l : list A) : l !! (length l - 1)%nat = last l.
Proof. rewrite last_lookup. by rewrite Nat.sub_1_r. Qed.

(** The padding puts a space before a leading backtick and a space
    after a trailing one of the content itself. *)
Lemma padBackticks_spec (text : jsstring) :
  padBackticks text
  = (if bool_decide (head text = Some backtick) then [space] else [])
    ++ text
    ++ (if bool_decide (last text = Some backtick) then [space] else []).
Proof.
  unfold padBackticks. rewrite <- head_lookup.
  destruct (bool_decide (head text = Some backtick)) eqn:Hhead.
  - apply bool_decide_eq_true in Hhead.
    destruct text as [|c text]; [discriminate|].
    rewrite !lookup_last. rewrite (last_cons_cons space c text).
    destruct (bool_decide (last (c :: text) = Some backtick)); simpl;
      [reflexivity | by rewrite app_nil_r].
  - rewrite lookup_last.
    destruct (bool_decide (last text = Some backtick)); simpl;
      [reflexivity | by rewrite app_nil_r].
Qed.

(** C9.  Let [token] be an atomic leaf: not a soft break, a text or an
    inline wrapper, without children, with a nesting that is neither
    [1] nor [-1].  Met while the current node is the node at [p], with
    the children [cs], it leaves the current node where it is and
    appends to [cs] one node: named by the type of the token, with the
    token as both its [open] and its [close], and with exactly one
    child, a text node.  The value of that text node is the content of
    the token; for a [code_inline] token, the content with a space
    before it if its first unit is a backtick, and a space after it if
    its last unit is a backtick. *)
Theorem atomic_leaf (token : Token.t) (p : path) (tree node : Node.t)
  (cs : list Node.t) :
  isLeaf token = true →
  lookupAt p tree = Some node →
  Node.children node = Some cs →
  let content := Token.content token in
  let text :=
    if bool_decide (Token.type token = str "code_inline")
    then (if bool_decide (head content = Some backtick) then [space] else [])
         ++ content
         ++ (if bool_decide (last content = Some backtick) then [space] else [])
    else content in
  let leaf := Node.mk (Token.type token) (Some token) (Some token) None
                      (Some [Node.mk (str "text") None None (Some text) None]) in
  ∃ tree',
    toTree_token token (Some p) tree = Ok (Some p, tree')
    ∧ lookupAt p tree' = Some (Node.set_children (Some (cs ++ [leaf])) node).
Proof.
  intros Hleaf Hl Hcs content text leaf.
  unfold isLeaf, byNesting in Hleaf.
  repeat (apply andb_true_iff in Hleaf as [Hleaf ?]).
  repeat match goal with H : negb _ = true |- _ => apply negb_true_iff in H end.
  rewrite toTree_token_unfold.
  repeat match goal with H : _ = _ :> bool |- _ => rewrite H end.
  subst leaf text content. rewrite <- padBackticks_spec.
  match goal with
  | |- context [Node.set_children (Some (cs ++ [?leaf])) node] =>
      destruct (pushAt_lookup p leaf tree node cs Hl Hcs) as (tree' & Hpush & Hl')
  end.
  exists tree'. split; [|exact Hl'].
  cbv zeta. unfold Node.text. rewrite Hpush. reflexivity.
Qed.



Section Build.

Context {ext : Externals}.


(** C4, as the code has it.  The converter checks no balance.  Let the
    stream [tokens] be processed without exception and leave the root
    as the current node, and let [tok] be a closing event that follows
    it.  Then [tok] becomes the [close] of the root and the current
    node is undefined.  If [tok] ends the stream, the conversion
    returns what it returns for [tokens].  If a token other than an
    inline wrapper follows [tok], the conversion throws a [TypeError]. *)
Theorem unmatched_close (tokens : list Token.t) (tree : Node.t) (tok : Token.t) :
  forEach tokens (Some []) rootNode = Ok (Some [], tree) →
  isClosing tok = true →
  forEach (tokens ++ [tok]) (Some []) rootNode
  = Ok (None, Node.set_close (Some tok) tree)
  ∧ newParser (tokens ++ [tok]) = newParser tokens
  ∧ (∀ (next : Token.t) (rest : list Token.t),
       Token.type next ≠ str "inline" →
       newParser (tokens ++ tok :: next :: rest) = Throw TypeError).
Proof.
  intros Hfe Hclose.
  unfold isClosing, byNesting in Hclose.
  repeat (apply andb_true_iff in Hclose as [Hclose ?]).
  repeat match goal with H : negb _ = true |- _ => apply negb_true_iff in H end.
  assert (Hstep : toTree_token tok (Some []) tree
                  = Ok (None, Node.set_close (Some tok) tree)).
  { rewrite toTree_token_unfold.
    repeat match goal with H : _ = _ :> bool |- _ => rewrite H end.
    match goal with H : bool_decide (_ = -1) = true |- _ =>
      apply bool_decide_eq_true in H; rewrite H end.
    reflexivity. }
  split; [|split].
  - rewrite forEach_app, Hfe. simpl. rewrite Hstep. reflexivity.
  - unfold newParser, toTree. rewrite forEach_app, Hfe. simpl.
    rewrite Hstep. reflexivity.
  - intros next rest Hnext.
    unfold newParser, toTree. rewrite forEach_app, Hfe.
    cbn [bind forEach]. rewrite Hstep. cbn [bind].
    replace (toTree_token next None (Node.set_close (Some tok) tree))
      with (@Throw BuildState TypeError); [reflexivity|].
    rewrite toTree_token_unfold.
    rewrite (bool_decide_eq_false_2 _ Hnext).
    repeat match goal with
           | |- context [if ?b then _ else _] => destruct b
           end; reflexivity.
Qed.

End Build.

(** ** The length of the content *)

Lemma reached_unfold node :
  reached node
  = node :: if isText node then []
            else reachedAll (default [] (visited node)).
Proof.
  destruct node as [name open close value children].
  unfold isText, visited, isImage, reachedAll; simpl. f_equal.
  destruct (bool_decide (name = str "text")); [reflexivity|].
  destruct (bool_decide (name = str "image")); [reflexivity|]. simpl.
  destruct children as [cs|]; reflexivity.
Qed.

Lemma textLength_app l1 l2 :
  textLength (l1 ++ l2) = (textLength l1 + textLength l2)%nat.
Proof. unfold textLength. by rewrite filter_app, sum_list_with_app. Qed.

Lemma nonTextCount_app l1 l2 :
  nonTextCount (l1 ++ l2) = (nonTextCount l1 + nonTextCount l2)%nat.
Proof. unfold nonTextCount. by rewrite filter_app, length_app. Qed.

Lemma counts_text n l :
  isText n = true →
  textLength (n :: l) = (length (default [] (Node.value n)) + textLength l)%nat
  ∧ nonTextCount (n :: l) = nonTextCount l.
Proof.
  intros Ht. unfold textLength, nonTextCount.
  rewrite filter_cons_True by exact Ht.
  rewrite filter_cons_False by congruence. done.
Qed.

Lemma counts_nonText n l :
  isText n = false →
  textLength (n :: l) = textLength l
  ∧ nonTextCount (n :: l) = S (nonTextCount l).
Proof.
  intros Ht. unfold textLength, nonTextCount.
  rewrite filter_cons_False by congruence.
  rewrite filter_cons_True by exact Ht. done.
Qed.

Lemma length_renderAll nodes :
  Forall (λ n, Forall textValued (reached n) →
               length (render n)
               = (textLength (reached n) + 2 * nonTextCount (reached n))%nat)
         nodes →
  Forall textValued (reachedAll nodes) →
  length (renderAll nodes)
  = (textLength (reachedAll nodes) + 2 * nonTextCount (reachedAll nodes))%nat.
Proof.
  unfold renderAll, reachedAll.
  induction 1 as [|n rest Hn _ IH]; intros Hv; [reflexivity|].
  rewrite !bind_cons in *. apply Forall_app in Hv as [Hv1 Hv2].
  rewrite length_app, textLength_app, nonTextCount_app, Hn, IH by assumption.
  lia.
Qed.

Lemma length_render node :
  Forall textValued (reached node) →
  length (render node)
  = (textLength (reached node) + 2 * nonTextCount (reached node))%nat.
Proof.
  induction node as [node IH] using Node_children_ind. intros Hv.
  rewrite render_unfold. rewrite reached_unfold in Hv |- *.
  apply Forall_cons in Hv as [Hnode Hv].
  destruct (isText node) eqn:Ht.
  - destruct (counts_text node [] Ht) as [-> ->].
    destruct (Hnode Ht) as [v Hval]. rewrite Hval. simpl.
    unfold textLength, nonTextCount. simpl. lia.
  - destruct (counts_nonText node (reachedAll (default [] (visited node))) Ht)
      as [-> ->].
    rewrite !length_app. simpl.
    rewrite length_renderAll; [lia| |exact Hv].
    unfold visited. destruct (isImage node); [constructor | exact IH].
Qed.

Section Content.

Context {ext : Externals}.

(** C10, as the code has it.  The placeholder is [U+FFFC] and stays in
    the content: a walk appends to the content, for each node that it
    reaches, the value of the node if it is a text node, and else one
    placeholder, what its visited children append, and one placeholder.
    Nothing below an image is reached.  So, when the text nodes reached
    carry values, the content grows by the total length of the values
    of the text nodes reached plus twice the number of non-text nodes
    reached, and the final annotation of a non-text node without
    children is on [[start, start + 2)]. *)
Theorem placeholders_in_content (nodes : list Node.t) (this this' : Parser) :
  walk nodes this = Ok this' →
  Forall textValued (reachedAll nodes) →
  placeholder = 0xFFFC%N
  ∧ content this' = content this ++ renderAll nodes
  ∧ (∀ node, isText node = false →
       render node
       = [placeholder] ++ renderAll (default [] (visited node)) ++ [placeholder])
  ∧ length (content this')
    = (length (content this) + textLength (reachedAll nodes)
       + 2 * nonTextCount (reachedAll nodes))%nat
  ∧ (∀ (node : Node.t) (before after : Parser),
       isText node = false →
       Node.children node = Some [] →
       walkNode node before = Ok after →
       content after = content before ++ [placeholder; placeholder]
       ∧ ∃ fa, finalAnnotation after = Some fa
               ∧ Annotation.type fa = Node.name node
               ∧ Annotation.start fa = contentLength before
               ∧ Annotation.end_ fa = contentLength before + 2).
Proof.
  intros Hw Hv. split; [reflexivity|].
  pose proof (walk_content _ _ _ Hw) as Hc.
  split; [exact Hc|]. split.
  { intros node Ht. by rewrite render_unfold, Ht. }
  split.
  { rewrite Hc, length_app, length_renderAll; [lia| |exact Hv].
    apply Forall_forall. intros n _. apply length_render. }
  intros node before after Ht Hcs Hn.
  assert (Hvis : visited node = Some []).
  { unfold visited. destruct (isImage node); [reflexivity | exact Hcs]. }
  split.
  - rewrite (walkNode_content _ _ _ Hn), render_unfold, Ht, Hvis. reflexivity.
  - destruct (walkNode_nonText _ _ _ Ht Hn) as (tok & l & mid & _ & Hl & Hmid & ->).
    rewrite Hvis in Hl. injection Hl as <-. simpl in Hmid. injection Hmid as <-.
    rewrite finalAnnotation_afterClose, contentLength_afterOpen.
    eexists. split; [reflexivity|]. simpl. repeat split. lia.
Qed.

End Content.

(** ** Every non-text node reached is entered *)

Section Reached.

Context {ext : Externals}.

(** The relation [entered] misses no node: a walk that returns enters
    every non-text node that it reaches. *)
Lemma reached_entered (nodes : list Node.t) (this this' : Parser) :
  walk nodes this = Ok this' →
  ∀ d, d ∈ reachedAll nodes → isText d = false →
       ∃ thisd, entered nodes this d thisd.
Proof.
  revert nodes this this'.
  apply (walk_run_ind
           (λ n this _, ∀ rest d, d ∈ reached n → isText d = false →
                          ∃ thisd, entered (n :: rest) this d thisd)
           (λ nodes this _, ∀ d, d ∈ reachedAll nodes → isText d = false →
                          ∃ thisd, entered nodes this d thisd)).
  - intros n this Ht rest d Hd Hdt. rewrite reached_unfold, Ht in Hd.
    apply list_elem_of_singleton in Hd as ->. congruence.
  - intros n this tok nodes mid Ht _ Hv _ IH rest d Hd Hdt.
    rewrite reached_unfold, Ht, Hv in Hd. simpl in Hd.
    apply elem_of_cons in Hd as [->|Hd].
    + exists this. by constructor.
    + destruct (IH d Hd Hdt) as [thisd He]. exists thisd.
      by eapply entered_below.
  - intros this d Hd. by apply elem_of_nil in Hd.
  - intros n rest this mid this' Hn IHn _ IHrest d Hd Hdt.
    unfold reachedAll in Hd. rewrite bind_cons in Hd.
    apply elem_of_app in Hd as [Hd|Hd].
    + by apply IHn.
    + destruct (IHrest d Hd Hdt) as [thisd He]. exists thisd.
      by eapply entered_later.
Qed.

End Reached.

(** ** The trees of [toTree] meet the hypotheses on text nodes *)

Lemma textShape_textLeaf n : textShape n → textLeaf n.
Proof.
  intros Hn Ht. destruct (Hn Ht) as [Hnone _]. unfold descendants.
  by rewrite Hnone.
Qed.

Lemma textShape_textValued n : textShape n → textValued n.
Proof. intros Hn Ht. by destruct (Hn Ht). Qed.

Lemma subtree_below (t n m : Node.t) :
  n ∈ subtree t → m ∈ subtree n → m ∈ subtree t.
Proof.
  induction t as [t IH] using Node_children_ind. intros Hn Hm.
  rewrite subtree_unfold in Hn. apply elem_of_cons in Hn as [->|Hn]; [exact Hm|].
  rewrite subtree_unfold. apply elem_of_cons; right.
  unfold descendants in *. destruct (Node.children t) as [cs|]; simpl in *;
    [|by apply elem_of_nil in Hn].
  apply list_elem_of_bind in Hn as (c & Hn & Hc).
  apply list_elem_of_bind. exists c. split; [|exact Hc].
  rewrite Forall_forall in IH. by apply (IH c Hc).
Qed.

Lemma reached_subtree (n m : Node.t) : m ∈ reached n → m ∈ subtree n.
Proof.
  induction n as [n IH] using Node_children_ind.
  rewrite reached_unfold, subtree_unfold. intros Hm.
  apply elem_of_cons in Hm as [->|Hm]; [left|]. apply elem_of_cons; right.
  destruct (isText n); [by apply elem_of_nil in Hm|].
  unfold visited in Hm. destruct (isImage n); [by apply elem_of_nil in Hm|].
  unfold descendants, reachedAll in *.
  destruct (Node.children n) as [cs|]; simpl in *; [|by apply elem_of_nil in Hm].
  apply list_elem_of_bind in Hm as (c & Hm & Hc).
  apply list_elem_of_bind. exists c. split; [|exact Hc].
  rewrite Forall_forall in IH. by apply (IH c Hc).
Qed.

(** X16.  In the tree of a stream without a token of type [text_open],
    the text nodes below any node are leaves, and the text nodes reached
    from it carry values. *)
Lemma toTree_text_nodes (tokens : list Token.t) (tree n : Node.t) :
  Forall (λ t, opensText t = false) (tokens ≫= allTokens) →
  toTree tokens rootNode = Ok tree →
  n ∈ subtree tree →
  Forall textLeaf (descendants n) ∧ Forall textValued (reached n).
Proof.
  intros Hno Htree Hn.
  pose proof (toTree_textShape tokens tree Hno Htree) as Hshape.
  rewrite Forall_forall in Hshape.
  split; apply Forall_forall; intros m Hm.
  - apply textShape_textLeaf, Hshape. apply (subtree_below tree n m Hn).
    rewrite subtree_unfold. by apply elem_of_cons; right.
  - apply textShape_textValued, Hshape. apply (subtree_below tree n m Hn).
    by apply reached_subtree.
Qed.

(** ** The traversal returns on well-formed trees *)




Section Returns.

Context {ext : Externals}.



End Returns.


Lemma nesting_fidelity_witness :
  ∃ this' thisb',
    isText headingNode = false
    ∧ walkNode (ext := plain) headingNode emptyParser = Ok this'
    ∧ visited headingNode = Some [emNode]
    ∧ entered (ext := plain) [emNode] (afterOpen (str "heading") emptyParser)
              emNode (afterOpen (str "heading") emptyParser)
    ∧ ∃ fa fb,
        walkNode (ext := plain) emNode (afterOpen (str "heading") emptyParser)
        = Ok thisb'
        ∧ finalAnnotation this' = Some fa
        ∧ Annotation.type fa = str "heading"
        ∧ finalAnnotation thisb' = Some fb
        ∧ Annotation.type fb = str "em"
        ∧ fb ∈ annotations this'
        ∧ Annotation.start fa ≤ Annotation.start fb
        ∧ Annotation.end_ fb ≤ Annotation.end_ fa.
Proof.
  assert (Hent : entered (ext := plain) [emNode]
                   (afterOpen (str "heading") emptyParser)
                   emNode (afterOpen (str "heading") emptyParser))
    by (apply entered_here; reflexivity).
  destruct (nesting_fidelity (ext := plain) headingNode emNode [emNode]
              emptyParser
              (afterClose (str "heading")
                 (finalAttributes (ext := plain) (str "heading") (tk "heading_open" "h2" 1))
                 0
                 (afterClose (str "em")
                    (finalAttributes (ext := plain) (str "em") (tk "em_open" "em" 1))
                    1
                    (append (str "a")
                       (afterOpen (str "em") (afterOpen (str "heading") emptyParser)))))
              (afterOpen (str "heading") emptyParser)
              eq_refl ltac:(vm_compute; reflexivity) eq_refl Hent)
    as (thisb' & fa & fb & H).
  eexists _, thisb'. split; [reflexivity|]. split; [vm_compute; reflexivity|].
  split; [reflexivity|]. split; [exact Hent|].
  exists fa, fb. exact H.
Defined.

Lemma boundary_well_formedness_witness :
  ∃ doc,
    newParser (ext := plain) headingTokens = Ok doc
    ∧ Forall (λ a, 0 ≤ Annotation.start a
                   ∧ Annotation.start a ≤ Annotation.end_ a
                   ∧ Annotation.end_ a ≤ contentLength doc)
             (annotations doc).
Proof.
  eexists. split; [vm_compute; reflexivity|].
  apply (boundary_well_formedness (ext := plain) headingTokens).
  vm_compute; reflexivity.
Defined.

Lemma heading_level_fence_info_witness :
  (∃ this' fa,
     walkNode (ext := plain) headingNode emptyParser = Ok this'
     ∧ finalAnnotation this' = Some fa
     ∧ Annotation.attributes fa !! str "level" = Some (VNum 2))
  ∧ (∃ this' fa,
       walkNode (ext := plain) fenceNode emptyParser = Ok this'
       ∧ finalAnnotation this' = Some fa
       ∧ Annotation.attributes fa !! str "info" = Some (VStr (str "js"))).
Proof.
  split.
  - assert (Hrun : {doc | walkNode (ext := plain) headingNode emptyParser = Ok doc})
      by (eexists; vm_compute; reflexivity).
    destruct Hrun as [doc Hrun].
    destruct (heading_level_fence_info (ext := plain) headingNode
                (tk "heading_open" "h2" 1) emptyParser doc
                (or_introl eq_refl) eq_refl Hrun
                ltac:(intros handler Eh; discriminate Eh))
      as (fa & Hfa & _ & _ & H2 & _).
    exists doc, fa. split; [exact Hrun|]. split; [exact Hfa|].
    exact (H2 eq_refl eq_refl).
  - assert (Hrun : {doc | walkNode (ext := plain) fenceNode emptyParser = Ok doc})
      by (eexists; vm_compute; reflexivity).
    destruct Hrun as [doc Hrun].
    destruct (heading_level_fence_info (ext := plain) fenceNode
                fenceToken emptyParser doc
                (or_intror eq_refl) eq_refl Hrun
                ltac:(intros handler Eh; discriminate Eh))
      as (fa & Hfa & _ & _ & _ & Hinfo).
    exists doc, fa. split; [exact Hrun|]. split; [exact Hfa|].
    exact (Hinfo eq_refl).
Defined.

Lemma list_tightness_witness :
  ∃ this' fa,
    isList (Node.name listNode) = true
    ∧ walkNode (ext := plain) listNode emptyParser = Ok this'
    ∧ finalAnnotation this' = Some fa
    ∧ Annotation.attributes fa !! str "tight" = Some (VBool true).
Proof.
  assert (Hrun : {doc | walkNode (ext := plain) listNode emptyParser = Ok doc})
    by (eexists; vm_compute; reflexivity).
  destruct Hrun as [doc Hrun].
  destruct (list_tightness (ext := plain) listNode emptyParser doc
              eq_refl Hrun ltac:(intros handler tok Eh; discriminate Eh))
    as (fa & items & tight & Hfa & _ & Hitems & _ & _ & Hscenario).
  exists doc, fa. split; [reflexivity|]. split; [exact Hrun|].
  split; [exact Hfa|].
  apply (Hscenario (itemNode true) (itemNode false)).
  - simpl in Hitems. congruence.
  - left. exists [paragraphNode true], (paragraphNode true).
    eexists. split; [reflexivity|]. split; [left|].
    split; [reflexivity|]. split; reflexivity.
Defined.

Lemma image_alt_text_witness :
  ∃ attributes,
    Forall textLeaf (descendants imageNode)
    ∧ walkNode (ext := plain) imageNode emptyParser
      = Ok (mkParser
              [placeholder; placeholder]
              [openMarker (str "image") 0;
               closeMarker (str "image") 2;
               Annotation.mk (str "image") attributes 0 2])
    ∧ attributes !! str "alt" = Some (VStr (str "ab")).
Proof.
  assert (Hleaf : Forall textLeaf (descendants imageNode)).
  { repeat constructor;
      first [ intros H; vm_compute in H; discriminate H
            | intros _; reflexivity ]. }
  destruct (image_alt_text (ext := plain) imageNode imageToken
              [emNode; Node.text (str "b")] emptyParser
              eq_refl eq_refl eq_refl Hleaf
              ltac:(intros handler tok Eh; discriminate Eh))
    as (attributes & Hrun & Halt).
  exists attributes. split; [exact Hleaf|]. split; [exact Hrun|exact Halt].
Defined.

(** C4, refuted as stated: a stream that is one closing event, which no
    opening matches, converts to the empty document; nothing is thrown. *)
Lemma closing_event_alone_returns_document :
  isClosing (tk "paragraph_close" "p" (-1)) = true
  ∧ newParser (ext := plain) [tk "paragraph_close" "p" (-1)] = Ok emptyParser
  ∧ ∀ e, newParser (ext := plain) [tk "paragraph_close" "p" (-1)] ≠ Throw e.
Proof.
  split; [reflexivity|].
  assert (H : newParser (ext := plain) [tk "paragraph_close" "p" (-1)]
              = Ok emptyParser) by (vm_compute; reflexivity).
  split; [exact H|]. intros e. rewrite H. discriminate.
Qed.

Lemma unmatched_close_witness :
  ∃ tree,
    forEach (paragraphTokens [txt "a"]) (Some []) rootNode = Ok (Some [], tree)
    ∧ isClosing (tk "paragraph_close" "p" (-1)) = true
    ∧ forEach (paragraphTokens [txt "a"] ++ [tk "paragraph_close" "p" (-1)])
              (Some []) rootNode
      = Ok (None, Node.set_close (Some (tk "paragraph_close" "p" (-1))) tree)
    ∧ newParser (ext := plain)
        (paragraphTokens [txt "a"] ++ [tk "paragraph_close" "p" (-1)])
      = newParser (ext := plain) (paragraphTokens [txt "a"])
    ∧ (∀ (next : Token.t) (rest : list Token.t),
         Token.type next ≠ str "inline" →
         newParser (ext := plain)
           (paragraphTokens [txt "a"]
            ++ tk "paragraph_close" "p" (-1) :: next :: rest)
         = Throw TypeError).
Proof.
  eexists. split; [vm_compute; reflexivity|]. split; [reflexivity|].
  apply (unmatched_close (ext := plain)); [vm_compute; reflexivity | reflexivity].
Defined.



Lemma atomic_leaf_witness :
  isLeaf codeToken = true
  ∧ lookupAt [] rootNode = Some rootNode
  ∧ Node.children rootNode = Some []
  ∧ ∃ tree',
      toTree_token codeToken (Some []) rootNode = Ok (Some [], tree')
      ∧ lookupAt [] tree'
        = Some (Node.set_children
                  (Some ([] ++ [Node.mk (str "code_inline") (Some codeToken)
                                  (Some codeToken) None
                                  (Some [Node.mk (str "text") None None
                                           (Some (str " `a` ")) None])]))
                  rootNode).
Proof.
  split; [reflexivity|]. split; [reflexivity|]. split; [reflexivity|].
  exact (atomic_leaf codeToken [] rootNode rootNode [] eq_refl eq_refl eq_refl).
Defined.

(** C10, refuted as stated: the paragraph [![cat](x.png)] has two
    non-text nodes and the text [cat], and its content has four units,
    not seven. *)
Lemma image_text_not_in_content :
  ∃ tree doc,
    toTree imageParagraphTokens rootNode = Ok tree
    ∧ newParser (ext := plain) imageParagraphTokens = Ok doc
    ∧ textLength (descendants tree) = 3%nat
    ∧ nonTextCount (descendants tree) = 2%nat
    ∧ length (content doc) = 4%nat
    ∧ length (content doc)
      ≠ (textLength (descendants tree) + 2 * nonTextCount (descendants tree))%nat.
Proof.
  eexists _, _. split; [vm_compute; reflexivity|].
  split; [vm_compute; reflexivity|].
  split; [vm_compute; reflexivity|]. split; [vm_compute; reflexivity|].
  split; [vm_compute; reflexivity|]. vm_compute. discriminate.
Qed.

Lemma placeholders_in_content_witness :
  ∃ this' after fa,
    walk (ext := plain) [headingNode; emptyNode] emptyParser = Ok this'
    ∧ Forall textValued (reachedAll [headingNode; emptyNode])
    ∧ content this'
      = [placeholder; placeholder] ++ str "a" ++ [placeholder; placeholder]
        ++ [placeholder; placeholder]
    ∧ length (content this') = (0 + 1 + 2 * 3)%nat
    ∧ walkNode (ext := plain) emptyNode emptyParser = Ok after
    ∧ content after = [placeholder; placeholder]
    ∧ finalAnnotation after = Some fa
    ∧ Annotation.start fa = 0
    ∧ Annotation.end_ fa = 0 + 2.
Proof.
  assert (Hv : Forall textValued (reachedAll [headingNode; emptyNode])).
  { repeat constructor;
      first [ intros H; vm_compute in H; discriminate H
            | intros _; eexists; reflexivity ]. }
  assert (Hrun : {doc | walk (ext := plain) [headingNode; emptyNode] emptyParser
                        = Ok doc})
    by (eexists; vm_compute; reflexivity).
  destruct Hrun as [doc Hrun].
  assert (Hone : {doc | walkNode (ext := plain) emptyNode emptyParser = Ok doc})
    by (eexists; vm_compute; reflexivity).
  destruct Hone as [after Hone].
  destruct (placeholders_in_content (ext := plain) [headingNode; emptyNode]
              emptyParser doc Hrun Hv)
    as (_ & Hcontent & _ & Hlen & Hchildless).
  destruct (Hchildless emptyNode emptyParser after eq_refl eq_refl Hone)
    as (Hafter & fa & Hfa & _ & Hstart & Hend).
  exists doc, after, fa.
  split; [exact Hrun|]. split; [exact Hv|]. split; [exact Hcontent|].
  split; [exact Hlen|]. split; [exact Hone|]. split; [exact Hafter|].
  split; [exact Hfa|]. split; [exact Hstart | exact Hend].
Defined.

(** * Further properties of the code *)

(** ** getAttributes *)


(** ** walk and convertTokenToAnnotation *)

Section WalkMore.

Context {ext : Externals}.

(** X2.  A walk that returns pushes exactly three annotations for every
    non-text node that it reaches (the two markers and the final one),
    and none for a text node. *)
Theorem three_annotations_per_node (nodes : list Node.t) (this this' : Parser) :
  walk nodes this = Ok this' →
  length (annotations this')
  = (length (annotations this) + 3 * nonTextCount (reachedAll nodes))%nat.
Proof.
  revert nodes this this'.
  apply (walk_run_ind
           (λ n this this',
              length (annotations this')
              = (length (annotations this) + 3 * nonTextCount (reached n))%nat)
           (λ nodes this this',
              length (annotations this')
              = (length (annotations this)
                 + 3 * nonTextCount (reachedAll nodes))%nat)).
  - intros n this Ht. rewrite reached_unfold, Ht.
    destruct (counts_text n [] Ht) as [_ ->]. simpl. unfold nonTextCount. simpl. lia.
  - intros n this tok nodes mid Ht _ Hv _ IH.
    rewrite reached_unfold, Ht, Hv. simpl.
    destruct (counts_nonText n (reachedAll nodes) Ht) as [_ ->].
    unfold afterClose. simpl. rewrite length_app, IH.
    unfold afterOpen. simpl. rewrite length_app. simpl. lia.
  - intros this. unfold reachedAll, nonTextCount. simpl. lia.
  - intros n rest this mid this' _ IHn _ IHrest.
    unfold reachedAll in *. rewrite bind_cons, nonTextCount_app, IHrest, IHn. lia.
Qed.

Lemma unitAt_app content more offset x :
  unitAt content offset = Some x → unitAt (content ++ more) offset = Some x.
Proof.
  unfold unitAt. destruct (decide (0 ≤ offset)); [|discriminate].
  apply lookup_app_l_Some.
Qed.

Lemma unitAt_length content x more :
  unitAt (content ++ x :: more) (Z.of_nat (length content)) = Some x.
Proof.
  unfold unitAt. rewrite decide_True by lia. rewrite Nat2Z.id.
  by rewrite list_lookup_middle.
Qed.

Lemma bracketed_app content more a :
  bracketed content a → bracketed (content ++ more) a.
Proof. intros (H1 & H2 & H3). repeat split; [exact H1| |]; by apply unitAt_app. Qed.

Lemma walk_bracketed_both :
  (∀ n this this', walkNode n this = Ok this' →
     ∃ added, annotations this' = annotations this ++ added
              ∧ Forall (bracketed (content this')) added)
  ∧ (∀ nodes this this', walk nodes this = Ok this' →
       ∃ added, annotations this' = annotations this ++ added
                ∧ Forall (bracketed (content this')) added).
Proof.
  apply walk_run_ind.
  - intros n this _. exists []. simpl. by rewrite app_nil_r.
  - intros n this tok nodes mid _ _ _ Hw (added & E & F).
    pose proof (walk_content _ _ _ Hw) as Hc.
    unfold afterOpen in Hc, E. simpl in Hc, E.
    eexists (_ :: added ++ [_; _]). split.
    + unfold afterClose. simpl. rewrite E, <- !app_assoc. reflexivity.
    + unfold afterClose. simpl.
      assert (Hlen : contentLength mid = Z.of_nat (length (content mid)))
        by reflexivity.
      assert (Hfirst : unitAt (content mid ++ [placeholder]) (contentLength this)
                       = Some placeholder).
      { rewrite Hc, <- !app_assoc. apply unitAt_length. }
      assert (Hlast : unitAt (content mid ++ [placeholder]) (contentLength mid + 1 - 1)
                      = Some placeholder).
      { replace (contentLength mid + 1 - 1) with (Z.of_nat (length (content mid)))
          by (rewrite Hlen; lia).
        apply unitAt_length. }
      assert (Hgrow : contentLength this < contentLength mid).
      { unfold contentLength. rewrite Hc, !length_app. simpl. lia. }
      constructor.
      { unfold bracketed, parseToken. simpl. split; [lia|].
        replace (contentLength this + 1 - 1) with (contentLength this) by lia.
        auto. }
      apply Forall_app. split.
      { eapply Forall_impl; [exact F|]. intros a. apply bracketed_app. }
      constructor.
      { unfold bracketed, parseToken. simpl. split; [lia|]. auto. }
      constructor; [|constructor].
      unfold bracketed. simpl. split; [lia|]. auto.
  - intros this. exists []. split; [by rewrite app_nil_r | constructor].
  - intros n rest this mid this' _ (a1 & E1 & F1) Hrest (a2 & E2 & F2).
    pose proof (walk_content _ _ _ Hrest) as Hc.
    exists (a1 ++ a2). split; [by rewrite E2, E1, app_assoc|].
    apply Forall_app. split; [|exact F2].
    eapply Forall_impl; [exact F1|]. intros a. rewrite Hc. apply bracketed_app.
Qed.

(** X3.  In the document of a conversion that returns, the interval of
    every annotation, marker or final, is not empty, and the units of
    the content at its start and at its end minus one are placeholders
    [U+FFFC]. *)
Theorem annotations_bracketed_by_placeholders (tokens : list Token.t)
  (doc : Parser) :
  newParser tokens = Ok doc →
  Forall (λ a, Annotation.start a < Annotation.end_ a
               ∧ unitAt (content doc) (Annotation.start a) = Some placeholder
               ∧ unitAt (content doc) (Annotation.end_ a - 1) = Some placeholder)
         (annotations doc).
Proof.
  unfold newParser. intros H. inv_bind H. inv_bind H.
  destruct (proj2 walk_bracketed_both _ _ _ H) as (added & Eadded & F).
  rewrite Eadded. simpl. exact F.
Qed.

Lemma literalText_app l1 l2 :
  literalText (l1 ++ l2) = literalText l1 ++ literalText l2.
Proof. unfold literalText. by rewrite filter_app, fmap_app, concat_app. Qed.

Lemma literalText_cons n l :
  literalText (n :: l)
  = (if isText n then default [] (Node.value n) else []) ++ literalText l.
Proof.
  unfold literalText. destruct (isText n) eqn:Ht.
  - by rewrite filter_cons_True by exact Ht.
  - by rewrite filter_cons_False by congruence.
Qed.

Lemma filter_placeholder_free (v : jsstring) :
  placeholder ∉ v → filter (λ c, c ≠ placeholder) v = v.
Proof.
  induction v as [|c v IH]; intros Hv; [reflexivity|].
  apply not_elem_of_cons in Hv as [Hc Hv].
  rewrite filter_cons_True by congruence. by rewrite IH.
Qed.

Lemma renderAll_text nodes :
  Forall (λ n, Forall plainText (reached n) →
               filter (λ c, c ≠ placeholder) (render n) = literalText (reached n))
         nodes →
  Forall plainText (reachedAll nodes) →
  filter (λ c, c ≠ placeholder) (renderAll nodes) = literalText (reachedAll nodes).
Proof.
  unfold renderAll, reachedAll.
  induction 1 as [|n rest Hn _ IH]; intros Hp; [reflexivity|].
  rewrite !bind_cons in *. apply Forall_app in Hp as [Hp1 Hp2].
  by rewrite filter_app, literalText_app, Hn, IH.
Qed.

Lemma render_text node :
  Forall plainText (reached node) →
  filter (λ c, c ≠ placeholder) (render node) = literalText (reached node).
Proof.
  induction node as [node IH] using Node_children_ind. intros Hp.
  rewrite render_unfold. rewrite reached_unfold in Hp |- *.
  apply Forall_cons in Hp as [Hnode Hp]. rewrite literalText_cons.
  destruct (isText node) eqn:Ht.
  - destruct (Hnode Ht) as (v & -> & Hv). simpl.
    unfold literalText. simpl. rewrite app_nil_r.
    by apply filter_placeholder_free.
  - simpl. rewrite filter_cons_False by (intros Hne; by apply Hne).
    rewrite filter_app.
    rewrite (filter_cons_False _ placeholder) by (intros Hne; by apply Hne).
    rewrite filter_nil, app_nil_r.
    apply renderAll_text; [|exact Hp].
    unfold visited. destruct (isImage node); [constructor | exact IH].
Qed.

(** X4.  The text survives the conversion.  When the values of the text
    nodes reached hold no [U+FFFC], the content of a walk that returns,
    with its placeholders taken out, is what it was before, followed by
    the values of the text nodes reached, in document order. *)
Theorem text_recovered_without_placeholders (nodes : list Node.t)
  (this this' : Parser) :
  walk nodes this = Ok this' →
  Forall plainText (reachedAll nodes) →
  filter (λ c, c ≠ placeholder) (content this')
  = filter (λ c, c ≠ placeholder) (content this) ++ literalText (reachedAll nodes).
Proof.
  intros Hw Hp. rewrite (walk_content _ _ _ Hw), filter_app. f_equal.
  apply renderAll_text; [|exact Hp].
  apply Forall_forall. intros n _. apply render_text.
Qed.

Lemma throw_TypeError {A} (r : result A) e : r = Throw e → r = Throw TypeError.
Proof. by destruct e. Qed.

Lemma walkNode_incomplete node this :
  incomplete node → walkNode node this = Throw TypeError.
Proof.
  intros [Ht Hbad]. rewrite walkNode_unfold, Ht.
  destruct (openToken node) as [open|e] eqn:Ho; [|by destruct e]. cbn [bind].
  destruct (get (visited node)) as [nodes|e] eqn:Hv; [|by destruct e]. cbn [bind].
  destruct (walk nodes _) as [mid|e]; [|by destruct e]. cbn [bind].
  unfold next_close. cbn [g_open].
  destruct open as [tok|]; [|reflexivity]. exfalso.
  unfold openToken, altToken, tightToken, visited in Ho, Hv.
  destruct Hbad as [Hopen|Hcs].
  - rewrite Hopen in Ho. destruct (isImage node); [discriminate|]. cbn [bind] in Ho.
    destruct (isList (Node.name node)); [|discriminate].
    destruct (get (Node.children node)) as [items|]; [|discriminate].
    cbn [bind] in Ho. destruct (isTight items); discriminate.
  - rewrite Hcs in *. destruct (isImage node); [|discriminate].
    destruct (Node.open node); [|discriminate]. cbn [get bind] in Ho.
    destruct node as [name open close value children]. simpl in Hcs.
    subst children. discriminate.
Qed.

(** X5.  A non-text node without an open token, or without a children
    array, cannot be converted: when a walk reaches one, at any depth,
    it throws a [TypeError] and returns no parser. *)
Theorem walk_throws_on_incomplete_node (nodes : list Node.t) (this : Parser)
  (n : Node.t) :
  n ∈ reachedAll nodes →
  isText n = false →
  Node.open n = None ∨ Node.children n = None →
  walk nodes this = Throw TypeError.
Proof.
  intros Hin Ht Hbad. revert this.
  assert (Hlist : ∀ nodes,
            Forall (λ m, n ∈ reached m → ∀ this, walkNode m this = Throw TypeError)
                   nodes →
            n ∈ reachedAll nodes → ∀ this, walk nodes this = Throw TypeError).
  { unfold reachedAll. induction 1 as [|m rest Hm _ IH]; intros Hn this.
    - by apply elem_of_nil in Hn.
    - rewrite bind_cons in Hn. simpl.
      destruct (walkNode m this) as [mid|e] eqn:Hw; [|by destruct e].
      cbn [bind]. apply elem_of_app in Hn as [Hn|Hn]; [|by apply IH].
      rewrite Hm in Hw by exact Hn. discriminate. }
  apply Hlist; [|exact Hin]. apply Forall_forall. intros m _. clear nodes Hin.
  induction m as [m IH] using Node_children_ind. intros Hn this.
  rewrite reached_unfold in Hn. apply elem_of_cons in Hn as [<-|Hn].
  { apply walkNode_incomplete. by split. }
  destruct (isText m) eqn:Hm; [by apply elem_of_nil in Hn|].
  rewrite walkNode_unfold, Hm.
  destruct (openToken m) as [open|e]; [|by destruct e]. cbn [bind].
  destruct (visited m) as [l|] eqn:Hv; [|reflexivity]. cbn [get bind].
  rewrite Hlist; [reflexivity| |exact Hn].
  unfold visited in Hv. destruct (isImage m).
  - injection Hv as <-. constructor.
  - rewrite Hv in IH. exact IH.
Qed.


Lemma annotation_eq type attributes start start' end_ end_' :
  start = start' → end_ = end_' →
  Annotation.mk type attributes start end_
  = Annotation.mk type attributes start' end_'.
Proof. by intros -> ->. Qed.

Lemma shift_shift j k a : shift k (shift j a) = shift (j + k) a.
Proof. unfold shift. simpl. f_equal; lia. Qed.

Lemma shift_0 a : shift 0 a = a.
Proof. destruct a. unfold shift. simpl. f_equal; lia. Qed.

Lemma shift_parseToken k type start end_ :
  shift k (parseToken type start end_) = parseToken type (start + k) (end_ + k).
Proof. reflexivity. Qed.

Lemma walk_relative_both :
  (∀ n this this', walkNode n this = Ok this' →
     ∃ dc da, appended this this' dc da
              ∧ ∀ base, ∃ base', walkNode n base = Ok base'
                                 ∧ appended base base' dc da)
  ∧ (∀ nodes this this', walk nodes this = Ok this' →
       ∃ dc da, appended this this' dc da
                ∧ ∀ base, ∃ base', walk nodes base = Ok base'
                                   ∧ appended base base' dc da).
Proof.
  apply walk_run_ind.
  - intros n this Ht. exists (valueToString (Node.value n)), [].
    split; [split; [reflexivity | simpl; by rewrite app_nil_r]|].
    intros base. eexists. split; [by apply walkNode_text|].
    split; [reflexivity | simpl; by rewrite app_nil_r].
  - intros n this tok nodes mid Ht Ho Hv Hw (dc & da & _ & Hany).
    set (name := Node.name n) in *.
    set (attributes := finalAttributes name tok).
    set (L := Z.of_nat (length dc)).
    set (dc' := [placeholder] ++ dc ++ [placeholder]).
    set (da' := openMarker name 0 :: (shift 1 <$> da)
                ++ [closeMarker name (L + 2);
                    Annotation.mk name attributes 0 (L + 2)]).
    assert (Hrun : ∀ base,
              walk nodes (afterOpen name base) = Ok
                (mkParser (content base ++ [placeholder] ++ dc)
                          (annotations base
                           ++ [openMarker name (contentLength base)]
                           ++ (shift (contentLength base + 1) <$> da)))).
    { intros base. destruct (Hany (afterOpen name base)) as (b' & Hb & Hc & Ha).
      rewrite Hb. f_equal. destruct b' as [c a]. simpl in Hc, Ha.
      rewrite Hc, Ha, contentLength_afterOpen. unfold afterOpen. simpl.
      by rewrite <- !app_assoc. }
    assert (Hbase : ∀ base,
              appended base
                (afterClose name attributes (contentLength base)
                   (mkParser (content base ++ [placeholder] ++ dc)
                      (annotations base
                       ++ [openMarker name (contentLength base)]
                       ++ (shift (contentLength base + 1) <$> da))))
                dc' da').
    { intros base. unfold appended, afterClose, contentLength, pushAnnotations, append.
      cbn [content annotations].
      split; [subst dc'; by rewrite <- !app_assoc|].
      rewrite <- !app_assoc. f_equal. subst da'.
      rewrite fmap_cons, fmap_app, <- list_fmap_compose.
      rewrite !length_app. cbn [length app]. subst L.
      f_equal; [unfold openMarker, shift, parseToken; simpl; f_equal; lia|].
      f_equal.
      { apply list_fmap_ext. intros i a _. simpl. rewrite shift_shift.
        f_equal. lia. }
      unfold closeMarker, shift, parseToken. cbn [fmap list_fmap Annotation.type
        Annotation.attributes Annotation.start Annotation.end_].
      f_equal; [apply annotation_eq; lia|].
      f_equal. apply annotation_eq; lia. }
    exists dc', da'. split.
    + specialize (Hrun this). fold name in Hrun.
      rewrite Hrun in Hw. injection Hw as <-. apply Hbase.
    + intros base. eexists. split; [|apply Hbase].
      rewrite walkNode_unfold, Ht, Ho. cbn [bind]. rewrite Hv. cbn [get bind].
      fold name. rewrite Hrun. cbn [bind]. unfold next_close.
      cbn [g_open g_name g_start get bind].
      unfold afterClose. rewrite contentLength_append. reflexivity.
  - intros this. exists [], []. split.
    + split; simpl; by rewrite app_nil_r.
    + intros base. exists base. split; [reflexivity|].
      split; simpl; by rewrite app_nil_r.
  - intros n rest this mid this' _ (dc1 & da1 & [Hc1 Ha1] & Hany1)
      _ (dc2 & da2 & [Hc2 Ha2] & Hany2).
    set (k := Z.of_nat (length dc1)).
    assert (Hjoin : ∀ a b c : Parser,
              appended a b dc1 da1 → appended b c dc2 da2 →
              appended a c (dc1 ++ dc2) (da1 ++ (shift k <$> da2))).
    { intros a b c [Hab Hab'] [Hbc Hbc']. split.
      - by rewrite Hbc, Hab, app_assoc.
      - rewrite Hbc', Hab', <- app_assoc. f_equal. rewrite fmap_app. f_equal.
        rewrite <- list_fmap_compose. apply list_fmap_ext. intros i x _. simpl.
        rewrite shift_shift. f_equal. unfold contentLength. rewrite Hab, length_app.
        subst k. lia. }
    exists (dc1 ++ dc2), (da1 ++ (shift k <$> da2)). split.
    + by apply (Hjoin this mid this').
    + intros base. destruct (Hany1 base) as (b1 & Hw1 & Hb1).
      destruct (Hany2 b1) as (b2 & Hw2 & Hb2).
      exists b2. split; [simpl; rewrite Hw1; exact Hw2|].
      by apply (Hjoin base b1 b2).
Qed.

(** X7.  Offsets are relative to where a walk starts.  A walk that
    returns from the parser [this] also returns from the empty parser,
    and what it appends to [this] is what it gives from the empty
    parser: the same content, and the same annotations moved by the
    length of the content of [this]. *)
Theorem walk_offsets_relative (nodes : list Node.t) (this this' : Parser) :
  walk nodes this = Ok this' →
  ∃ alone,
    walk nodes emptyParser = Ok alone
    ∧ content this' = content this ++ content alone
    ∧ annotations this'
      = annotations this ++ (shift (contentLength this) <$> annotations alone).
Proof.
  intros Hw.
  destruct (proj2 walk_relative_both _ _ _ Hw) as (dc & da & [Hc Ha] & Hany).
  destruct (Hany emptyParser) as (alone & Halone & Hc0 & Ha0).
  exists alone. split; [exact Halone|]. simpl in Hc0, Ha0.
  assert (Hda : shift (contentLength emptyParser) <$> da = da).
  { rewrite <- (list_fmap_id da) at 2. apply list_fmap_ext.
    intros i a _. apply shift_0. }
  rewrite Hda in Ha0. by rewrite Hc0, Ha0, Hc, Ha.
Qed.

End WalkMore.

(** ** toTree *)

Lemma keeps_refl node : keeps node node.
Proof.
  repeat split. destruct (Node.children node) as [cs|]; [|reflexivity]. eauto.
Qed.

Lemma keeps_trans a b c : keeps a b → keeps b c → keeps a c.
Proof.
  intros (N1 & O1 & V1 & C1) (N2 & O2 & V2 & C2).
  split; [congruence|]. split; [congruence|]. split; [congruence|].
  destruct (Node.children a) as [cs|].
  - destruct C1 as (cs1 & E1 & L1). rewrite E1 in C2.
    destruct C2 as (cs2 & E2 & L2). exists cs2. split; [exact E2 | lia].
  - by rewrite C1 in C2.
Qed.

Lemma onlyGrows_refl tree : onlyGrows tree tree.
Proof. intros p node H. exists node. split; [exact H | apply keeps_refl]. Qed.

Lemma onlyGrows_trans t1 t2 t3 :
  onlyGrows t1 t2 → onlyGrows t2 t3 → onlyGrows t1 t3.
Proof.
  intros H12 H23 p node H.
  destruct (H12 p node H) as (n2 & H2 & K2).
  destruct (H23 p n2 H2) as (n3 & H3 & K3).
  exists n3. split; [exact H3 | by eapply keeps_trans].
Qed.

Lemma alterAt_onlyGrows f (q : path) tree tree' :
  (∀ n n', f n = Ok n' →
     keeps n n'
     ∧ ∀ cs, Node.children n = Some cs →
             ∃ more, Node.children n' = Some (cs ++ more)) →
  alterAt f q tree = Ok tree' →
  onlyGrows tree tree'.
Proof.
  intros Hf. revert tree tree'.
  induction q as [|j q IH]; intros tree tree' Ha; simpl in Ha.
  - destruct (Hf _ _ Ha) as [Hk Happ].
    intros [|i p] node Hl; simpl in Hl.
    + injection Hl as <-. exists tree'. auto.
    + destruct (Node.children tree) as [cs|] eqn:Hcs; [|discriminate].
      destruct (cs !! i) as [c|] eqn:Hi; [|discriminate].
      destruct (Happ cs eq_refl) as (more & Hcs').
      exists node. split; [|apply keeps_refl]. simpl. rewrite Hcs'.
      by rewrite (lookup_app_l_Some _ _ _ _ Hi).
  - inv_bind Ha. apply get_Ok in E. rename a into cs, E into Hcs.
    inv_bind Ha. apply get_Ok in E. rename a into cj, E into Hj.
    inv_bind Ha. rename a into cj', E into Hcj. injection Ha as <-.
    specialize (IH _ _ Hcj).
    intros [|i p] node Hl; simpl in Hl.
    + injection Hl as <-. eexists. split; [reflexivity|].
      repeat split. simpl. rewrite Hcs. eexists. split; [reflexivity|].
      by rewrite length_insert.
    + rewrite Hcs in Hl. simpl.
      destruct (cs !! i) as [c|] eqn:Hi; [|discriminate].
      destruct (decide (i = j)) as [->|Hne].
      * rewrite Hj in Hi. injection Hi as <-.
        rewrite list_lookup_insert_eq by (by eapply lookup_lt_Some).
        by apply IH.
      * rewrite list_lookup_insert_ne by congruence. rewrite Hi.
        exists node. split; [exact Hl | apply keeps_refl].
Qed.

Lemma pushAt_onlyGrows cur child tree (p : path) (i : nat) tree' :
  pushAt cur child tree = Ok (p, i, tree') → onlyGrows tree tree'.
Proof.
  intros H. unfold pushAt in H.
  inv_bind H. inv_bind H. inv_bind H. inv_bind H. injection H as _ _ <-.
  eapply alterAt_onlyGrows; [|eassumption].
  intros n n' Hp. unfold push in Hp. inv_bind Hp. apply get_Ok in E3.
  injection Hp as <-. split.
  - repeat split. rewrite E3. simpl. eexists. split; [reflexivity|].
    rewrite length_app. lia.
  - intros cs Hcs. simpl. rewrite E3 in Hcs. injection Hcs as <-. eauto.
Qed.

Lemma set_close_onlyGrows tok (p : path) tree tree' :
  alterAt (λ n, Ok (Node.set_close (Some tok) n)) p tree = Ok tree' →
  onlyGrows tree tree'.
Proof.
  apply alterAt_onlyGrows. intros n n' [= <-]. split.
  - repeat split. simpl. destruct (Node.children n); [|reflexivity]. eauto.
  - intros cs Hcs. exists []. simpl. by rewrite app_nil_r.
Qed.

Lemma toTree_token_onlyGrows (token : Token.t) :
  ∀ cur tree cur' tree',
    toTree_token token cur tree = Ok (cur', tree') → onlyGrows tree tree'.
Proof.
  induction token as [token IH] using Token_children_ind.
  assert (Hlist : ∀ tokens,
            Forall (λ t, ∀ cur tree cur' tree',
                      toTree_token t cur tree = Ok (cur', tree') →
                      onlyGrows tree tree') tokens →
            ∀ cur tree cur' tree',
              forEach tokens cur tree = Ok (cur', tree') → onlyGrows tree tree').
  { induction 1 as [|t rest Ht _ IHrest]; intros cur tree cur' tree' H;
      simpl in H.
    - injection H as _ <-. apply onlyGrows_refl.
    - inv_bind H. destruct a as [cur1 tree1].
      eapply onlyGrows_trans; [eapply Ht | eapply IHrest]; eassumption. }
  intros cur tree cur' tree' H. rewrite toTree_token_unfold in H.
  assert (Hpush : ∀ child,
            (let* '(_, _, t) := pushAt cur child tree in Ok (cur, t))
            = Ok (cur', tree') → onlyGrows tree tree').
  { intros child Hp. inv_bind Hp. destruct a as [[p i] t].
    injection Hp as _ <-. by eapply pushAt_onlyGrows. }
  destruct (isSoftbreak token); [by eapply Hpush|].
  destruct (bool_decide (Token.type token = str "text")); [by eapply Hpush|].
  destruct (bool_decide (Token.type token = str "inline")).
  { inv_bind H. apply get_Ok in E. rewrite E in IH. simpl in IH.
    inv_bind H. destruct a0 as [cur1 tree1]. injection H as _ <-.
    by eapply Hlist. }
  destruct (childless token).
  - destruct (bool_decide (Token.nesting token = 1)).
    { cbv zeta in H. inv_bind H. destruct a as [[p i] t].
      injection H as _ <-. by eapply pushAt_onlyGrows. }
    destruct (bool_decide (Token.nesting token = -1)); [|by eapply Hpush].
    inv_bind H. inv_bind H. injection H as _ <-.
    by eapply set_close_onlyGrows.
  - cbv zeta in H. inv_bind H. destruct a as [[p i] t].
    inv_bind H. destruct a as [cur2 tree2]. injection H as _ <-.
    eapply onlyGrows_trans; [by eapply pushAt_onlyGrows | by eapply Hlist].
Qed.

Lemma forEach_onlyGrows (tokens : list Token.t) :
  ∀ cur tree cur' tree',
    forEach tokens cur tree = Ok (cur', tree') → onlyGrows tree tree'.
Proof.
  induction tokens as [|t rest IH]; intros cur tree cur' tree' H; simpl in H.
  - injection H as _ <-. apply onlyGrows_refl.
  - inv_bind H. destruct a as [cur1 tree1].
    eapply onlyGrows_trans; [by eapply toTree_token_onlyGrows | by eapply IH].
Qed.

(** X8.  [toTree] only adds to the tree.  Whatever the stream, a node
    that is in the tree at some path before a run of the callback is at
    the same path after it, with the same name, open token and value;
    its children array has not shrunk, and a node without a children
    array, a text node, has still none. *)
Theorem toTree_only_grows (tokens : list Token.t) (cur cur' : option path)
  (tree tree' : Node.t) (p : path) (node : Node.t) :
  forEach tokens cur tree = Ok (cur', tree') →
  lookupAt p tree = Some node →
  ∃ node',
    lookupAt p tree' = Some node'
    ∧ Node.name node' = Node.name node
    ∧ Node.open node' = Node.open node
    ∧ Node.value node' = Node.value node
    ∧ match Node.children node with
      | Some cs => ∃ cs', Node.children node' = Some cs'
                          ∧ (length cs ≤ length cs')%nat
      | None => Node.children node' = None
      end.
Proof.
  intros H Hl. destruct (forEach_onlyGrows _ _ _ _ _ H p node Hl) as (n' & Hn & K).
  exists n'. split; [exact Hn | exact K].
Qed.

Lemma depth_token_unfold (token : Token.t) (d : option nat) :
  depth_token token d =
    if isSoftbreak token then (if d is Some _ then Some d else None)
    else if bool_decide (Token.type token = str "text")
    then (if d is Some _ then Some d else None)
    else if bool_decide (Token.type token = str "inline") then
      match Token.children token with
      | None => None
      | Some tokens => if depth_forEach tokens d is Some _ then Some d else None
      end
    else if childless token then
      if bool_decide (Token.nesting token = 1) then
        match d with Some k => Some (Some (S k)) | None => None end
      else if bool_decide (Token.nesting token = -1) then
        match d with
        | Some (S k) => Some (Some k)
        | Some O => Some None
        | None => None
        end
      else (if d is Some _ then Some d else None)
    else
      match d with
      | Some k =>
          if depth_forEach (default [] (Token.children token)) (Some (S k))
             is Some _
          then Some d else None
      | None => None
      end.
Proof.
  destruct token as [type tag attrs nesting content children info hidden].
  unfold isSoftbreak, childless; simpl.
  destruct (bool_decide (tag = str "br") && bool_decide (type = str "softbreak"));
    [reflexivity|].
  destruct (bool_decide (type = str "text")); [reflexivity|].
  destruct (bool_decide (type = str "inline")).
  - destruct children; reflexivity.
  - destruct children as [[|tok rest]|]; reflexivity.
Qed.

Lemma length_parentOf (p : path) :
  length <$> parentOf p = match length p with O => None | S k => Some k end.
Proof.
  induction p as [|i p _] using rev_ind; [reflexivity|].
  rewrite parentOf_snoc, length_app. simpl.
  by rewrite Nat.add_1_r.
Qed.

Lemma pushAt_None child tree : pushAt None child tree = Throw TypeError.
Proof. reflexivity. Qed.

(** The callback of [toTree] throws, or moves the current node, as the
    nesting of the stream alone tells. *)
Lemma toTree_token_depth (token : Token.t) :
  ∀ cur tree,
    validCurrent cur tree →
    match toTree_token token cur tree with
    | Ok (cur', _) => depth_token token (length <$> cur) = Some (length <$> cur')
    | Throw _ => depth_token token (length <$> cur) = None
    end.
Proof.
  induction token as [token IH] using Token_children_ind.
  assert (Hlist : ∀ tokens,
            Forall (λ t, ∀ cur tree,
                      validCurrent cur tree →
                      match toTree_token t cur tree with
                      | Ok (cur', _) =>
                          depth_token t (length <$> cur) = Some (length <$> cur')
                      | Throw _ => depth_token t (length <$> cur) = None
                      end) tokens →
            ∀ cur tree,
              validCurrent cur tree →
              match forEach tokens cur tree with
              | Ok (cur', _) =>
                  depth_forEach tokens (length <$> cur) = Some (length <$> cur')
              | Throw _ => depth_forEach tokens (length <$> cur) = None
              end).
  { induction 1 as [|t rest Ht _ IHrest]; intros cur tree Hv; simpl;
      [reflexivity|].
    specialize (Ht cur tree Hv).
    destruct (toTree_token t cur tree) as [[cur1 tree1]|e] eqn:Hstep;
      cbn [bind]; rewrite Ht; [|reflexivity].
    destruct (toTree_token_valid _ _ _ _ _ Hv Hstep) as [_ Hv1].
    apply IHrest, Hv1. }
  intros cur tree Hv. rewrite toTree_token_unfold, depth_token_unfold.
  assert (Hpush : ∀ child,
            match (let* '(_, _, t) := pushAt cur child tree in Ok (cur, t)) with
            | Ok (cur', _) =>
                (if length <$> cur is Some _ then Some (length <$> cur) else None)
                = Some (length <$> cur')
            | Throw _ =>
                (if length <$> cur is Some _ then Some (length <$> cur) else None)
                = None
            end).
  { intros child. destruct cur as [p|]; [|reflexivity].
    destruct (pushAt_returns p child tree Hv) as (i & t & ->). reflexivity. }
  destruct (isSoftbreak token); [apply Hpush|].
  destruct (bool_decide (Token.type token = str "text")); [apply Hpush|].
  destruct (bool_decide (Token.type token = str "inline")).
  { destruct (Token.children token) as [cs|]; [|reflexivity].
    simpl in IH. cbn [get bind]. specialize (Hlist cs IH cur tree Hv).
    destruct (forEach cs cur tree) as [[c' t']|e]; cbn [bind];
      rewrite Hlist; reflexivity. }
  destruct (childless token).
  - destruct (bool_decide (Token.nesting token = 1)).
    { cbv zeta. destruct cur as [p|]; [|reflexivity].
      match goal with
      | |- context [pushAt (Some p) ?child tree] =>
          destruct (pushAt_returns p child tree Hv) as (i & t & ->)
      end.
      cbn [bind fmap option_fmap option_map]. rewrite length_app. simpl.
      by rewrite Nat.add_1_r. }
    destruct (bool_decide (Token.nesting token = -1)); [|apply Hpush].
    destruct cur as [p|]; [|reflexivity]. cbn [get bind].
    destruct (Hv p eq_refl) as (node & Hl & _).
    destruct (alterAt_lookup (λ n, Ok (Node.set_close (Some token) n)) p tree
                node _ Hl eq_refl) as (t & -> & _).
    cbn [bind]. rewrite length_parentOf. simpl.
    destruct (length p); reflexivity.
  - cbv zeta. destruct cur as [p|]; [|reflexivity].
    match goal with
    | |- context [pushAt (Some p) ?child tree] =>
        destruct (pushAt_returns p child tree Hv) as (i & t & Hpush');
        assert (Hv1 : validCurrent (Some (p ++ [i])) t)
          by (eapply (pushAt_Ok (Some p) child); [simpl; eauto | exact Hpush']);
        rewrite Hpush'
    end.
    cbn [bind].
    specialize (Hlist _ IH (Some (p ++ [i])) t Hv1).
    simpl in Hlist. rewrite length_app, Nat.add_1_r in Hlist. simpl.
    destruct (forEach _ (Some (p ++ [i])) t) as [[c' t']|e]; cbn [bind];
      rewrite Hlist; reflexivity.
Qed.

Lemma forEach_depth (tokens : list Token.t) :
  ∀ cur tree,
    validCurrent cur tree →
    match forEach tokens cur tree with
    | Ok (cur', _) => depth_forEach tokens (length <$> cur) = Some (length <$> cur')
    | Throw _ => depth_forEach tokens (length <$> cur) = None
    end.
Proof.
  induction tokens as [|t rest IH]; intros cur tree Hv; simpl; [reflexivity|].
  pose proof (toTree_token_depth t cur tree Hv) as Ht.
  destruct (toTree_token t cur tree) as [[cur1 tree1]|e] eqn:Hstep;
    cbn [bind]; rewrite Ht; [|reflexivity].
  destruct (toTree_token_valid _ _ _ _ _ Hv Hstep) as [_ Hv1].
  apply IH, Hv1.
Qed.

Lemma validCurrent_root : validCurrent (Some []) rootNode.
Proof. intros p [= <-]. exists rootNode. simpl. eauto. Qed.

(** X9.  Whether [toTree] throws depends on the nesting of the stream
    alone.  It returns a tree exactly when the depth count of the
    stream, started at the root, ends: every token that dereferences the
    current node is met at some depth, none is met after a closing
    event at the root, and every inline wrapper has a children array. *)
Theorem toTree_returns_iff_depths_defined (tokens : list Token.t) :
  (∃ tree, toTree tokens rootNode = Ok tree)
  ↔ (∃ d, depth_forEach tokens (Some 0%nat) = Some d).
Proof.
  pose proof (forEach_depth tokens (Some []) rootNode validCurrent_root) as H.
  unfold toTree. simpl in H.
  destruct (forEach tokens (Some []) rootNode) as [[cur tree]|e]; cbn [bind].
  - split; eauto.
  - rewrite H. split; [intros [t Ht]; discriminate | intros [d Hd]; discriminate].
Qed.

Lemma pushAt_new (p : path) child tree (i : nat) tree' :
  pushAt (Some p) child tree = Ok (p, i, tree') →
  lookupAt (p ++ [i]) tree' = Some child.
Proof.
  intros H. pose proof H as H'. unfold pushAt in H. cbn [get bind] in H.
  inv_bind H. apply get_Ok in E. rename a into node.
  inv_bind H. apply get_Ok in E0. rename a into cs.
  destruct (pushAt_lookup p child tree node cs E E0) as (t & Hp & Hl).
  rewrite Hp in H'. injection H' as <- <-.
  rewrite lookupAt_app, Hl. simpl.
  rewrite lookup_app_r by lia. by rewrite Nat.sub_diag.
Qed.

Lemma replace_open_suffix (name : jsstring) :
  replace_open (name ++ str "_open") = name.
Proof.
  unfold replace_open. rewrite length_app.
  replace (length name + length (str "_open") - 5)%nat with (length name)
    by (change (length (str "_open")) with 5%nat; lia).
  rewrite drop_app_length, take_app_length.
  by rewrite bool_decide_eq_true_2.
Qed.

(** X10.  An opening token of type [name_open], met at a current node
    with a children array, appends to it a node named [name], with the
    token as its [open] (and, until it is closed, as its [close]) and
    an empty children array, and makes this node the current node. *)
Theorem opening_token_opens_node (token : Token.t) (name : jsstring)
  (p : path) (tree node : Node.t) (cs : list Node.t) :
  isOpening token = true →
  Token.type token = name ++ str "_open" →
  lookupAt p tree = Some node →
  Node.children node = Some cs →
  let opened := Node.mk name (Some token) (Some token) None (Some []) in
  ∃ tree',
    toTree_token token (Some p) tree = Ok (Some (p ++ [length cs]), tree')
    ∧ lookupAt p tree' = Some (Node.set_children (Some (cs ++ [opened])) node)
    ∧ lookupAt (p ++ [length cs]) tree' = Some opened.
Proof.
  intros Hopen Htype Hl Hcs opened.
  unfold isOpening, byNesting in Hopen.
  repeat (apply andb_true_iff in Hopen as [Hopen ?]).
  repeat match goal with H : negb _ = true |- _ => apply negb_true_iff in H end.
  destruct (pushAt_lookup p opened tree node cs Hl Hcs) as (tree' & Hpush & Hl').
  exists tree'. rewrite toTree_token_unfold.
  repeat match goal with H : _ = _ :> bool |- _ => rewrite H end.
  cbv zeta. rewrite Htype, replace_open_suffix.
  fold opened. rewrite Hpush. split; [reflexivity|]. split; [exact Hl'|].
  by eapply pushAt_new.
Qed.

(** X11.  An opening token, a body that leaves the current node where
    the opening put it, and a closing token make one node: the stream
    leaves the current node where it was before the opening, and the
    node that the opening appended keeps its name and its open token,
    has what the body gave it, and has the closing token as its
    [close]. *)
Theorem open_body_close (open close : Token.t) (body : list Token.t)
  (p : path) (tree tree1 tree2 : Node.t) (cur1 : option path) :
  isOpening open = true →
  isClosing close = true →
  toTree_token open (Some p) tree = Ok (cur1, tree1) →
  forEach body cur1 tree1 = Ok (cur1, tree2) →
  ∃ (i : nat) (made : Node.t) (tree3 : Node.t),
    cur1 = Some (p ++ [i])
    ∧ forEach (open :: body ++ [close]) (Some p) tree = Ok (Some p, tree3)
    ∧ lookupAt (p ++ [i]) tree2 = Some made
    ∧ Node.name made = replace_open (Token.type open)
    ∧ Node.open made = Some open
    ∧ lookupAt (p ++ [i]) tree3 = Some (Node.set_close (Some close) made).
Proof.
  intros Hopen Hclose Hstep Hbody.
  unfold isOpening, isClosing, byNesting in Hopen, Hclose.
  repeat (apply andb_true_iff in Hopen as [Hopen ?]).
  repeat (apply andb_true_iff in Hclose as [Hclose ?]).
  repeat match goal with H : negb _ = true |- _ => apply negb_true_iff in H end.
  pose proof Hstep as Hstep'. rewrite toTree_token_unfold in Hstep'.
  assert (E1 : isSoftbreak open = false) by assumption.
  rewrite E1 in Hstep'.
  repeat match goal with
         | H : bool_decide (Token.type open = _) = false |- _ => rewrite H in Hstep'
         | H : childless open = true |- _ => rewrite H in Hstep'
         | H : bool_decide (Token.nesting open = 1) = true |- _ => rewrite H in Hstep'
         end.
  cbv zeta in Hstep'. inv_bind Hstep'. destruct a as [[p0 i] t].
  injection Hstep' as <- <-.
  assert (p0 = p) as ->.
  { unfold pushAt in E. cbn [get bind] in E. inv_bind E. inv_bind E.
    inv_bind E. by injection E as ->. }
  pose proof (pushAt_new _ _ _ _ _ E) as Hnew.
  destruct (forEach_onlyGrows _ _ _ _ _ Hbody _ _ Hnew)
    as (made & Hmade & Hname & Hop & _).
  destruct (alterAt_lookup (λ n, Ok (Node.set_close (Some close) n)) (p ++ [i])
              tree2 made _ Hmade eq_refl) as (tree3 & Ha & Hl3).
  exists i, made, tree3. split; [reflexivity|]. split.
  - change (open :: body ++ [close]) with ([open] ++ body ++ [close]).
    rewrite forEach_app. cbn [forEach bind]. rewrite Hstep. cbn [bind].
    rewrite forEach_app, Hbody. cbn [forEach bind].
    rewrite toTree_token_unfold.
    assert (E2 : isSoftbreak close = false) by assumption. rewrite E2.
    repeat match goal with
           | H : bool_decide (Token.type close = _) = false |- _ => rewrite H
           | H : childless close = true |- _ => rewrite H
           end.
    match goal with H : bool_decide (Token.nesting close = -1) = true |- _ =>
      apply bool_decide_eq_true in H; rewrite H end.
    cbn [bool_decide decide_rel get bind]. simpl bool_decide.
    cbn [get bind]. rewrite Ha. cbn [bind]. by rewrite parentOf_snoc.
  - split; [exact Hmade|]. simpl in Hname, Hop.
    split; [exact Hname|]. split; [exact Hop | exact Hl3].
Qed.

(** X12.  An inline wrapper adds no node of its own: when its children,
    processed where the wrapper is met, leave the current node where it
    was, the stream with the wrapper builds the same tree, and ends at
    the same current node, as the stream with the children in its
    place. *)
Theorem inline_wrapper_spliced (before after children : list Token.t)
  (wrapper : Token.t) (start cur : option path) (root tree tree1 : Node.t) :
  Token.type wrapper = str "inline" →
  Token.children wrapper = Some children →
  forEach before start root = Ok (cur, tree) →
  forEach children cur tree = Ok (cur, tree1) →
  forEach (before ++ wrapper :: after) start root
  = forEach (before ++ children ++ after) start root.
Proof.
  intros Htype Hcs Hbefore Hchildren.
  rewrite !forEach_app, Hbefore. cbn [bind].
  rewrite forEach_app, Hchildren. cbn [forEach bind].
  rewrite toTree_token_unfold. unfold isSoftbreak. rewrite Htype, Hcs.
  replace (bool_decide (str "inline" = str "softbreak")) with false
    by (symmetry; by apply bool_decide_eq_false_2).
  rewrite andb_false_r.
  replace (bool_decide (str "inline" = str "text")) with false
    by (symmetry; by apply bool_decide_eq_false_2).
  rewrite bool_decide_eq_true_2 by reflexivity.
  cbn [get bind]. rewrite Hchildren. reflexivity.
Qed.

(** X13.  The padding of a code span does what its comment says: the
    padded content neither begins nor ends with a backtick. *)
Theorem padded_code_has_no_backtick_at_its_ends (text : jsstring) :
  head (padBackticks text) ≠ Some backtick
  ∧ last (padBackticks text) ≠ Some backtick.
Proof.
  rewrite padBackticks_spec.
  destruct (bool_decide (head text = Some backtick)) eqn:Hhead;
    destruct (bool_decide (last text = Some backtick)) eqn:Hlast;
    try apply bool_decide_eq_false in Hhead;
    try apply bool_decide_eq_false in Hlast.
  - split; [discriminate|]. rewrite app_assoc, last_snoc. discriminate.
  - split; [discriminate|]. rewrite app_nil_r. simpl.
    destruct text as [|c text]; [discriminate | exact Hlast].
  - simpl. split.
    + destruct text as [|c text]; [discriminate | exact Hhead].
    + rewrite last_snoc. discriminate.
  - simpl. rewrite app_nil_r. auto.
Qed.

(** X14.  While [toTree] runs on the root object, the current node,
    when it is defined, is a node of the tree with a children array:
    [currentNode.children.push] finds its array. *)
Theorem current_node_has_children (tokens : list Token.t) (p : path)
  (tree : Node.t) :
  forEach tokens (Some []) rootNode = Ok (Some p, tree) →
  ∃ node cs, lookupAt p tree = Some node ∧ Node.children node = Some cs.
Proof.
  intros H.
  destruct (forEach_valid _ _ _ _ _ validCurrent_root H) as [_ Hv].
  destruct (Hv p eq_refl) as (node & Hl & cs & Hcs). eauto.
Qed.

(** ** getText *)

Lemma getText_found node :
  is_Some (Node.children node) →
  ∃ textNodes,
    getText node = Ok textNodes
    ∧ Forall (λ n, isText n = true ∧ n ∈ descendants node) textNodes.
Proof.
  induction node as [node IH] using Node_children_ind. intros [cs Hcs].
  rewrite (descendants_children _ _ Hcs).
  destruct node as [name open close value children]. simpl in *. subst children.
  simpl in IH.
  match goal with
  | |- ∃ l, ?reduce cs [] = Ok l ∧ _ =>
      enough (Hacc : ∀ (Q : Node.t → Prop),
                (∀ n, n ∈ cs ≫= subtree → Q n) →
                ∀ acc, Forall (λ n, isText n = true ∧ Q n) acc →
                       ∃ l, reduce cs acc = Ok l
                            ∧ Forall (λ n, isText n = true ∧ Q n) l)
        by (apply (Hacc (λ n, n ∈ cs ≫= subtree)); [auto | constructor])
  end.
  induction cs as [|c cs IHcs]; intros Q Hsub acc Hacc; [eauto|].
  apply Forall_cons in IH as [IHc IH]. specialize (IHcs IH).
  assert (Hrest : ∀ n, n ∈ cs ≫= subtree → Q n).
  { intros n Hn. apply Hsub. rewrite bind_cons. apply elem_of_app. by right. }
  assert (Hc : ∀ n, n ∈ subtree c → Q n).
  { intros n Hn. apply Hsub. rewrite bind_cons. apply elem_of_app. by left. }
  destruct (isText c) eqn:Ht.
  - apply IHcs; [exact Hrest|]. apply Forall_app. split; [exact Hacc|].
    constructor; [|constructor]. split; [exact Ht|].
    apply Hc. rewrite subtree_unfold. left.
  - destruct (Node.children c) as [cs'|] eqn:Hcs'; [|by apply IHcs].
    destruct IHc as (more & -> & Hmore); [eauto|]. cbn [bind].
    apply IHcs; [exact Hrest|]. apply Forall_app. split; [exact Hacc|].
    eapply Forall_impl; [exact Hmore|]. intros n [Hn Hin]. split; [exact Hn|].
    apply Hc. rewrite subtree_unfold. by right.
Qed.

(** X15.  [getText] throws only for a node that has no children array
    itself; below it, it passes over the nodes without one.  What it
    returns are text nodes from below the node, and nothing else. *)
Theorem getText_returns_text_nodes (node : Node.t) :
  match Node.children node with
  | None => getText node = Throw TypeError
  | Some _ =>
      ∃ textNodes,
        getText node = Ok textNodes
        ∧ Forall (λ n, isText n = true ∧ n ∈ descendants node) textNodes
  end.
Proof.
  destruct (Node.children node) as [cs|] eqn:Hcs.
  - apply getText_found. eauto.
  - destruct node as [name open close value children]. simpl in Hcs.
    by subst children.
Qed.

(** ** Witnesses *)

Lemma three_annotations_per_node_witness :
  ∃ this',
    walk (ext := plain) [headingNode; Node.text (str "b")] emptyParser = Ok this'
    ∧ length (annotations this')
      = (length (annotations emptyParser)
         + 3 * nonTextCount (reachedAll [headingNode; Node.text (str "b")]))%nat.
Proof.
  eexists. split; [vm_compute; reflexivity|].
  apply (three_annotations_per_node (ext := plain)
           [headingNode; Node.text (str "b")] emptyParser).
  vm_compute; reflexivity.
Defined.

Lemma annotations_bracketed_by_placeholders_witness :
  ∃ doc,
    newParser (ext := plain) headingTokens = Ok doc
    ∧ Forall (λ a, Annotation.start a < Annotation.end_ a
                   ∧ unitAt (content doc) (Annotation.start a) = Some placeholder
                   ∧ unitAt (content doc) (Annotation.end_ a - 1)
                     = Some placeholder)
             (annotations doc).
Proof.
  eexists. split; [vm_compute; reflexivity|].
  apply (annotations_bracketed_by_placeholders (ext := plain) headingTokens).
  vm_compute; reflexivity.
Defined.

Lemma text_recovered_without_placeholders_witness :
  ∃ this',
    walk (ext := plain) [headingNode; Node.text (str "b")] emptyParser = Ok this'
    ∧ Forall plainText (reachedAll [headingNode; Node.text (str "b")])
    ∧ filter (λ c, c ≠ placeholder) (content this')
      = filter (λ c, c ≠ placeholder) (content emptyParser)
        ++ literalText (reachedAll [headingNode; Node.text (str "b")]).
Proof.
  assert (Hp : Forall plainText (reachedAll [headingNode; Node.text (str "b")])).
  { repeat constructor;
      first [ intros H; vm_compute in H; discriminate H
            | intros _; eexists; split; [reflexivity|];
              intros Hin; vm_compute in Hin;
              repeat (apply elem_of_cons in Hin as [Hin|Hin]; [discriminate Hin|]);
              by apply elem_of_nil in Hin ]. }
  eexists. split; [vm_compute; reflexivity|]. split; [exact Hp|].
  apply (text_recovered_without_placeholders (ext := plain)
           [headingNode; Node.text (str "b")] emptyParser);
    [vm_compute; reflexivity | exact Hp].
Defined.

Lemma walk_throws_on_incomplete_node_witness :
  brokenNode ∈ reachedAll [headingOfBroken]
  ∧ isText brokenNode = false
  ∧ (Node.open brokenNode = None ∨ Node.children brokenNode = None)
  ∧ walk (ext := plain) [headingOfBroken] emptyParser = Throw TypeError.
Proof.
  assert (Hin : brokenNode ∈ reachedAll [headingOfBroken])
    by (right; left).
  split; [exact Hin|]. split; [reflexivity|]. split; [left; reflexivity|].
  exact (walk_throws_on_incomplete_node (ext := plain) [headingOfBroken]
           emptyParser brokenNode Hin eq_refl (or_introl eq_refl)).
Defined.


Lemma walk_offsets_relative_witness :
  ∃ this' alone,
    walk (ext := plain) [emNode] (mkParser (str "xy") []) = Ok this'
    ∧ walk (ext := plain) [emNode] emptyParser = Ok alone
    ∧ content this' = str "xy" ++ content alone
    ∧ annotations this' = [] ++ (shift 2 <$> annotations alone).
Proof.
  assert (Hrun : {doc | walk (ext := plain) [emNode] (mkParser (str "xy") [])
                        = Ok doc})
    by (eexists; vm_compute; reflexivity).
  destruct Hrun as [doc Hrun].
  destruct (walk_offsets_relative (ext := plain) [emNode]
              (mkParser (str "xy") []) doc Hrun)
    as (alone & Halone & Hc & Ha).
  exists doc, alone. split; [exact Hrun|]. split; [exact Halone|].
  split; [exact Hc | exact Ha].
Defined.

Lemma toTree_only_grows_witness :
  ∃ tree' node',
    forEach [txt "a"; tk "paragraph_close" "p" (-1)] (Some [0%nat]) paragraphOpened
    = Ok (Some [], tree')
    ∧ lookupAt [0%nat] tree' = Some node'
    ∧ Node.name node' = str "paragraph"
    ∧ Node.open node' = Some (tk "paragraph_open" "p" 1)
    ∧ Node.value node' = None
    ∧ ∃ cs', Node.children node' = Some cs' ∧ (0 ≤ length cs')%nat.
Proof.
  assert (Hrun : {t | forEach [txt "a"; tk "paragraph_close" "p" (-1)]
                        (Some [0%nat]) paragraphOpened = Ok (Some [], t)})
    by (eexists; vm_compute; reflexivity).
  destruct Hrun as [t Hrun].
  destruct (toTree_only_grows [txt "a"; tk "paragraph_close" "p" (-1)]
              (Some [0%nat]) (Some []) paragraphOpened t [0%nat]
              (Node.mk (str "paragraph") (Some (tk "paragraph_open" "p" 1))
                 (Some (tk "paragraph_open" "p" 1)) None (Some []))
              Hrun eq_refl)
    as (node' & Hl & Hn & Ho & Hv & Hc).
  exists t, node'. split; [exact Hrun|]. split; [exact Hl|].
  split; [exact Hn|]. split; [exact Ho|]. split; [exact Hv | exact Hc].
Defined.

Lemma opening_token_opens_node_witness :
  isOpening (tk "paragraph_open" "p" 1) = true
  ∧ Token.type (tk "paragraph_open" "p" 1) = str "paragraph" ++ str "_open"
  ∧ lookupAt [] rootNode = Some rootNode
  ∧ Node.children rootNode = Some []
  ∧ ∃ tree',
      toTree_token (tk "paragraph_open" "p" 1) (Some []) rootNode
      = Ok (Some ([] ++ [0%nat]), tree')
      ∧ lookupAt [] tree'
        = Some (Node.set_children
                  (Some ([] ++ [Node.mk (str "paragraph")
                                  (Some (tk "paragraph_open" "p" 1))
                                  (Some (tk "paragraph_open" "p" 1)) None
                                  (Some [])]))
                  rootNode)
      ∧ lookupAt ([] ++ [0%nat]) tree'
        = Some (Node.mk (str "paragraph") (Some (tk "paragraph_open" "p" 1))
                  (Some (tk "paragraph_open" "p" 1)) None (Some [])).
Proof.
  split; [reflexivity|]. split; [reflexivity|]. split; [reflexivity|].
  split; [reflexivity|].
  exact (opening_token_opens_node (tk "paragraph_open" "p" 1) (str "paragraph")
           [] rootNode rootNode [] eq_refl eq_refl eq_refl eq_refl).
Defined.

Lemma open_body_close_witness :
  ∃ tree2 made tree3,
    isOpening (tk "paragraph_open" "p" 1) = true
    ∧ isClosing (tk "paragraph_close" "p" (-1)) = true
    ∧ toTree_token (tk "paragraph_open" "p" 1) (Some []) rootNode
      = Ok (Some [0%nat], paragraphOpened)
    ∧ forEach [inl [txt "a"]] (Some [0%nat]) paragraphOpened
      = Ok (Some [0%nat], tree2)
    ∧ forEach (paragraphTokens [txt "a"]) (Some []) rootNode = Ok (Some [], tree3)
    ∧ lookupAt [0%nat] tree2 = Some made
    ∧ Node.name made = str "paragraph"
    ∧ Node.open made = Some (tk "paragraph_open" "p" 1)
    ∧ lookupAt [0%nat] tree3
      = Some (Node.set_close (Some (tk "paragraph_close" "p" (-1))) made).
Proof.
  assert (Hbody : {t | forEach [inl [txt "a"]] (Some [0%nat]) paragraphOpened
                       = Ok (Some [0%nat], t)})
    by (eexists; vm_compute; reflexivity).
  destruct Hbody as [tree2 Hbody].
  destruct (open_body_close (tk "paragraph_open" "p" 1)
              (tk "paragraph_close" "p" (-1)) [inl [txt "a"]] []
              rootNode paragraphOpened tree2 (Some [0%nat])
              eq_refl eq_refl eq_refl Hbody)
    as (i & made & tree3 & Hi & Hrun & Hmade & Hname & Hopen & Hl3).
  injection Hi as <-.
  exists tree2, made, tree3. split; [reflexivity|]. split; [reflexivity|].
  split; [reflexivity|]. split; [exact Hbody|]. split; [exact Hrun|].
  split; [exact Hmade|]. split; [exact Hname|]. split; [exact Hopen | exact Hl3].
Defined.

Lemma inline_wrapper_spliced_witness :
  ∃ tree1,
    Token.type (inl [txt "a"]) = str "inline"
    ∧ Token.children (inl [txt "a"]) = Some [txt "a"]
    ∧ forEach [tk "paragraph_open" "p" 1] (Some []) rootNode
      = Ok (Some [0%nat], paragraphOpened)
    ∧ forEach [txt "a"] (Some [0%nat]) paragraphOpened = Ok (Some [0%nat], tree1)
    ∧ forEach ([tk "paragraph_open" "p" 1] ++ inl [txt "a"]
               :: [tk "paragraph_close" "p" (-1)]) (Some []) rootNode
      = forEach ([tk "paragraph_open" "p" 1] ++ [txt "a"]
                 ++ [tk "paragraph_close" "p" (-1)]) (Some []) rootNode.
Proof.
  assert (Hcs : {t | forEach [txt "a"] (Some [0%nat]) paragraphOpened
                     = Ok (Some [0%nat], t)})
    by (eexists; vm_compute; reflexivity).
  destruct Hcs as [tree1 Hcs].
  exists tree1. split; [reflexivity|]. split; [reflexivity|].
  split; [reflexivity|]. split; [exact Hcs|].
  exact (inline_wrapper_spliced [tk "paragraph_open" "p" 1]
           [tk "paragraph_close" "p" (-1)] [txt "a"] (inl [txt "a"])
           (Some []) (Some [0%nat]) rootNode paragraphOpened tree1
           eq_refl eq_refl eq_refl Hcs).
Defined.

Lemma current_node_has_children_witness :
  ∃ tree node cs,
    forEach [tk "paragraph_open" "p" 1; txt "a"] (Some []) rootNode
    = Ok (Some [0%nat], tree)
    ∧ lookupAt [0%nat] tree = Some node
    ∧ Node.children node = Some cs.
Proof.
  assert (Hrun : {t | forEach [tk "paragraph_open" "p" 1; txt "a"] (Some [])
                        rootNode = Ok (Some [0%nat], t)})
    by (eexists; vm_compute; reflexivity).
  destruct Hrun as [tree Hrun].
  destruct (current_node_has_children [tk "paragraph_open" "p" 1; txt "a"]
              [0%nat] tree Hrun) as (node & cs & Hl & Hcs).
  exists tree, node, cs. split; [exact Hrun|]. split; [exact Hl | exact Hcs].
Defined.

Lemma toTree_text_nodes_witness :
  ∃ tree,
    Forall (λ t, opensText t = false) (headingTokens ≫= allTokens)
    ∧ toTree headingTokens rootNode = Ok tree
    ∧ tree ∈ subtree tree
    ∧ Forall textLeaf (descendants tree)
    ∧ Forall textValued (reached tree).
Proof.
  assert (Hno : Forall (λ t, opensText t = false) (headingTokens ≫= allTokens))
    by (repeat constructor).
  assert (Hrun : {t | toTree headingTokens rootNode = Ok t})
    by (eexists; vm_compute; reflexivity).
  destruct Hrun as [tree Hrun].
  assert (Hin : tree ∈ subtree tree) by (rewrite subtree_unfold; left).
  destruct (toTree_text_nodes headingTokens tree tree Hno Hrun Hin) as [H1 H2].
  exists tree. split; [exact Hno|]. split; [exact Hrun|]. split; [exact Hin|].
  split; [exact H1 | exact H2].
Defined.

